(** * The JSON chunker of the prolly tree store

    A shallow embedding of [go/store/prolly/tree/json_chunker.go]: the
    writer that cuts the canonical serialization of a JSON document into
    leaf blobs and hands [(key, address)] pairs to the level 1 chunker.

    The collaborators whose code lives in other files (the JSON scanner,
    the node store, the generic interior chunker, the tree cursor, the
    hash and the Weibull test) are parameters of the development. *)

From Stdlib Require Import List ZArith Lia Bool Arith.
From Stdlib Require Import Strings.Byte.
Import ListNotations.

Set Implicit Arguments.

(** ** Go values *)

Definition bytes := list byte.

(** A Go [[]byte]: [None] is the nil slice, [Some b] a non-nil slice that
    holds [b].  Capacity is not modelled: a slice expression whose bound
    lies beyond the length is out of range. *)
Definition slice := option bytes.

Definition slice_bytes (s : slice) : bytes :=
  match s with
  | None => []
  | Some b => b
  end.

Definition len (s : slice) : nat := length (slice_bytes s).

(** [s[:n]].  Go accepts [n] up to the capacity of [s]; beyond the length
    the model panics where Go, capacity allowing, returns a longer slice.
    What is proved of runs that stay within the length carries over to the
    code; a panic of the model at this expression does not. *)
Definition slice_to (s : slice) (n : nat) : option slice :=
  match s with
  | None => if Nat.eqb n 0 then Some None else None
  | Some b => if Nat.leb n (length b) then Some (Some (firstn n b)) else None
  end.

(** [s[n:]] *)
Definition slice_from (s : slice) (n : nat) : option slice :=
  match s with
  | None => if Nat.eqb n 0 then Some None else None
  | Some b => if Nat.leb n (length b) then Some (Some (skipn n b)) else None
  end.

(** [s[0]] *)
Definition slice_head (s : slice) : option byte :=
  match slice_bytes s with
  | [] => None
  | b :: _ => Some b
  end.

(** What a call can do besides returning: panic (an index or a slice
    expression out of range) or exhaust the fuel that bounds its loops. *)
Inductive outcome (A : Type) : Type :=
| Ret (a : A)
| Panic
| OutOfFuel.

Arguments Ret {A} a.
Arguments Panic {A}.
Arguments OutOfFuel {A}.

(** The value an error-returning scanner call reports: [nil], [io.EOF]
    or any other error. *)
Inductive scanStatus (error : Type) : Type :=
| ScanNil
| ScanEOF
| ScanErr (e : error).

Arguments ScanNil {error}.
Arguments ScanEOF {error}.
Arguments ScanErr {error} e.

Definition isEOF {error : Type} (st : scanStatus error) : bool :=
  match st with
  | ScanEOF => true
  | _ => false
  end.

(** ** The scanner state *)

Section Scanner.

Variable jsonLocation : Type.

Record JsonScanner : Type := mkScanner {
  jsonBuffer : slice;
  currentPath : jsonLocation;
  valueOffset : nat
}.

(** Modelled from the spec: [ScanJsonFromMiddle(buf, path)], absent from
    the sources, "produces one whose path is pre-seeded", at offset 0. *)
Definition ScanJsonFromMiddle (buf : slice) (path : jsonLocation) : JsonScanner :=
  mkScanner buf path 0.

(** Modelled from the spec: [atEndOfChunk], absent from the sources, is
    "true iff the offset equals the buffer length". *)
Definition atEndOfChunk (s : JsonScanner) : bool :=
  Nat.eqb (valueOffset s) (len (jsonBuffer s)).

(** Modelled from the spec: [skipBytes(n)], absent from the sources, is
    "advance offset without re-scanning". *)
Definition skipBytes (n : nat) (s : JsonScanner) : JsonScanner :=
  mkScanner (jsonBuffer s) (currentPath s) (valueOffset s + n).

End Scanner.

Arguments mkScanner {jsonLocation} _ _ _.

(** A [sql.JSONWrapper]: an [IndexedJsonDocument], of which the chunker
    reads the root [m.Root], or any other wrapper. *)
Inductive JSONWrapper (Node J : Type) : Type :=
| IndexedJsonDocument (m_Root : Node)
| OtherJson (v : J).

Arguments IndexedJsonDocument {Node J} m_Root.
Arguments OtherJson {Node J} v.

(** ** The collaborators

    Everything the chunker calls whose code lives in other files. *)

Class Platform : Type := {
  (** Go's [error] values, prolly tree nodes and node addresses. *)
  error : Type;
  Node : Type;
  Addr : Type;

  (** The objects a [JsonChunker] reaches through pointers: the node store
      [ns], the interior chunker [chunker] and the tree cursor [jCur.cur].
      They share state (the interior chunker is seeded with the cursor's
      parent and writes through the same store), so the model keeps them
      in one value that every call on one of them reads and may change. *)
  World : Type;

  (** [jsonLocation], with its [key] field and [getLastPathElement]. *)
  jsonLocation : Type;
  locationKey : jsonLocation -> bytes;
  getLastPathElement : jsonLocation -> bytes * bool;
  newRootLocation : jsonLocation;

  (** The scanner's parser: from the buffer, the current path and the
      offset to the next path, the next offset and the reported status. *)
  scanStep : bytes -> jsonLocation -> nat -> jsonLocation * nat * scanStatus error;
  firstElementOrEndOfEmptyValue : JsonScanner jsonLocation -> bool;

  (** The [endOfValue] marker byte. *)
  endOfValue : byte;

  (** Constants and functions of the node splitter. *)
  minChunkSize : Z;
  maxChunkSize : Z;
  levelSalt0 : Z;
  xxHash32 : bytes -> Z -> Z;
  weibullCheck : Z -> Z -> Z -> bool;

  (** The wrappers that are not indexed documents, and
      [types.MarshallJson]. *)
  J : Type;
  MarshallJson : JSONWrapper Node J -> slice + error;

  (** [NodeFromBytes(blobSerializer.Serialize(nil, [][]byte{value}, []uint64{1}, 0))] *)
  NodeFromBlob : slice -> Node + error;

  (** [ns.Write], [newChunker] (with or without a cursor),
      [chunker.AddPair], [chunker.Done], [cur.advance], [cur.Valid] and
      [cur.currentValue]. *)
  ns_Write : Node -> World -> World * (Addr + error);
  newChunker : bool -> World -> World * option error;
  chunker_AddPair : bytes -> Addr -> World -> World * option error;
  chunker_Done : World -> World * (Node + error);
  cur_advance : World -> World * option error;
  cur_Valid : World -> bool;
  cur_currentValue : World -> slice
}.

(** ** The chunker *)

Section Chunker.

Context {P : Platform}.

Local Abbreviation Scanner := (JsonScanner jsonLocation).

(** Modelled from the spec: [ScanJsonFromBeginning(buf)], absent from the
    sources, "produces an empty-path scanner at offset 0". *)
Definition ScanJsonFromBeginning (buf : slice) : Scanner :=
  mkScanner buf newRootLocation 0.

(** Modelled from the spec: [AdvanceToNextLocation], absent from the
    sources, "parses forward from its internal offset", "updates the
    current path", "updates the offset" and "reports success; or reports
    end-of-input"; the buffer is left as it is. *)
Definition AdvanceToNextLocation (s : Scanner) : Scanner * scanStatus error :=
  let '(path, off, st) :=
    scanStep (slice_bytes (jsonBuffer s)) (currentPath s) (valueOffset s) in
  (mkScanner (jsonBuffer s) path off, st).

(** The cursor handed to a splice; its [cur] lives in the world. *)
Record JsonCursor : Type := mkCursor {
  jsonScanner : Scanner
}.

(** The fields [chunker] and [ns] are pointers into the world. *)
Record JsonChunker : Type := mkChunker {
  jCur : option JsonCursor;
  jScanner : Scanner;
  world : World
}.

Definition setScanner (s : Scanner) (j : JsonChunker) : JsonChunker :=
  mkChunker (jCur j) s (world j).

Definition setWorld (w : World) (j : JsonChunker) : JsonChunker :=
  mkChunker (jCur j) (jScanner j) w.

(** A committed leaf: the key it was added under and the bytes of its blob. *)
Definition Leaf : Type := bytes * bytes.

Definition leafBytes (ls : list Leaf) : bytes := concat (map snd ls).

Definition withLeaves {X : Type} (ls : list Leaf) (r : outcome (X * list Leaf))
  : outcome (X * list Leaf) :=
  match r with
  | Ret (x, ls') => Ret (x, ls ++ ls')
  | Panic => Panic
  | OutOfFuel => OutOfFuel
  end.

Definition uint32 (n : Z) : Z := (n mod 2 ^ 32)%Z.

Definition crossesBoundary (key : bytes) (buf : slice) : bool :=
  let salt := levelSalt0 in
  let thisSize := uint32 (Z.of_nat (len buf)) in
  if (thisSize <? minChunkSize)%Z then false
  else if (maxChunkSize <? thisSize)%Z then true
  else
    let h := xxHash32 key salt in
    weibullCheck thisSize thisSize h.

Definition createNewLeafChunk (key : bytes) (value : slice) (j : JsonChunker)
  : JsonChunker * option error :=
  match NodeFromBlob value with
  | inr e => (j, Some e)
  | inl node =>
    match ns_Write node (world j) with
    | (w1, inr e) => (setWorld w1 j, Some e)
    | (w1, inl addr) =>
      let (w2, err) := chunker_AddPair key addr w1 in
      (setWorld w2 j, err)
    end
  end.

Definition appendJsonToBuffer (jsonBytes : slice) (j : JsonChunker) : JsonChunker :=
  let s := jScanner j in
  match jsonBuffer s with
  | None => setScanner (mkScanner jsonBytes (currentPath s) (valueOffset s)) j
  | Some b =>
    setScanner (mkScanner (Some (b ++ slice_bytes jsonBytes)) (currentPath s) (valueOffset s)) j
  end.

Definition appendJsonWithoutSplitting (jsonBytes : slice) (j : JsonChunker) : JsonChunker :=
  let j1 := appendJsonToBuffer jsonBytes j in
  setScanner (skipBytes (len jsonBytes) (jScanner j1)) j1.

Definition comma : byte := x2c.
Definition quote : byte := x22.
Definition colon : byte := x3a.
Definition closeBrace : byte := x7d.
Definition closeBracket : byte := x5d.

(** [fmt.Sprintf(`"%s":`, finalPathElement)] *)
Definition quotedKey (finalPathElement : bytes) : bytes :=
  quote :: finalPathElement ++ [quote; colon].

Definition writeKey (keyPath : jsonLocation) (j : JsonChunker) : JsonChunker :=
  let (finalPathElement, isArray) := getLastPathElement keyPath in
  let isFirstValue := firstElementOrEndOfEmptyValue (jScanner j) in
  let j1 := if negb isFirstValue
            then appendJsonWithoutSplitting (Some [comma]) j
            else j in
  if negb isArray
  then appendJsonWithoutSplitting (Some (quotedKey finalPathElement)) j1
  else j1.

(** The loop of [processBuffer]; [fuel] bounds the number of scanner
    calls.  The result holds the chunker, the error returned and the
    leaves committed, in order. *)
Fixpoint processBuffer (fuel : nat) (j : JsonChunker)
  : outcome (JsonChunker * option error * list Leaf) :=
  match fuel with
  | O => OutOfFuel
  | S fuel' =>
    let (s1, st) := AdvanceToNextLocation (jScanner j) in
    let j1 := setScanner s1 j in
    if isEOF st then Ret (j1, None, [])
    else
      let key := locationKey (currentPath s1) in
      match slice_to (jsonBuffer s1) (valueOffset s1) with
      | None => Panic
      | Some value =>
        if crossesBoundary key value then
          let (j2, err) := createNewLeafChunk key value j1 in
          match err with
          | Some e => Ret (j2, Some e, [])
          | None =>
            let newBuffer :=
              if negb (atEndOfChunk s1)
              then slice_from (jsonBuffer s1) (valueOffset s1)
              else Some None in
            match newBuffer with
            | None => Panic
            | Some newBuffer =>
              let newScanner := ScanJsonFromMiddle newBuffer (currentPath s1) in
              withLeaves [(key, slice_bytes value)]
                (processBuffer fuel' (setScanner newScanner j2))
            end
          end
        else processBuffer fuel' j1
      end
  end.

Definition endOfDocumentKey : bytes := [endOfValue].

(** The remaining buffer becomes the final blob, then the interior chunker
    is finalized: the exit shared by a full write and by a splice that
    reaches the end of the tree. *)
Definition finalLeaf (j : JsonChunker) : outcome (World * (Node + error) * list Leaf) :=
  let value := jsonBuffer (jScanner j) in
  let (j1, err) := createNewLeafChunk endOfDocumentKey value j in
  match err with
  | Some e => Ret (world j1, inr e, [])
  | None => Ret (chunker_Done (world j1), [(endOfDocumentKey, slice_bytes value)])
  end.

(** The [for] loop of [Done] in a splice; [pfuel] is the fuel of each
    [processBuffer] round and [fuel] bounds the number of rounds. *)
Fixpoint doneLoop (pfuel fuel : nat) (j : JsonChunker) (jsonBytes : slice)
  : outcome (World * (Node + error) * list Leaf) :=
  match fuel with
  | O => OutOfFuel
  | S fuel' =>
    let j1 := appendJsonToBuffer jsonBytes j in
    match processBuffer pfuel j1 with
    | Panic => Panic
    | OutOfFuel => OutOfFuel
    | Ret (j2, _, ls) =>
      match jsonBuffer (jScanner j2) with
      | None =>
        let (w3, _) := cur_advance (world j2) in
        Ret (chunker_Done w3, ls)
      | Some _ =>
        match cur_advance (world j2) with
        | (w3, Some e) => Ret (w3, inr e, ls)
        | (w3, None) =>
          let j3 := setWorld w3 j2 in
          if negb (cur_Valid w3)
          then withLeaves ls (finalLeaf j3)
          else withLeaves ls (doneLoop pfuel fuel' j3 (cur_currentValue w3))
        end
      end
    end
  end.

Definition needsComma (b : byte) : bool :=
  negb (Byte.eqb b closeBrace) && negb (Byte.eqb b closeBracket) && negb (Byte.eqb b comma).

Definition Done (pfuel fuel : nat) (j : JsonChunker)
  : outcome (World * (Node + error) * list Leaf) :=
  match jCur j with
  | None => finalLeaf j
  | Some jc =>
    let cursorDecoder := jsonScanner jc in
    match slice_from (jsonBuffer cursorDecoder) (valueOffset cursorDecoder) with
    | None => Panic
    | Some jsonBytes =>
      match slice_head jsonBytes with
      | None => Panic
      | Some b0 =>
        let j1 := if needsComma b0 then appendJsonToBuffer (Some [comma]) j else j in
        doneLoop pfuel fuel j1 jsonBytes
      end
    end
  end.

(** The constructors return the world next to the Go results, since
    [newChunker] may have changed it even when it fails. *)
Definition newEmptyJsonChunker (w : World) : World * option JsonChunker * option error :=
  match newChunker false w with
  | (w1, Some e) => (w1, None, Some e)
  | (w1, None) => (w1, Some (mkChunker None (ScanJsonFromBeginning None) w1), None)
  end.

(** [bytes.Clone] keeps nil nil. *)
Definition bytes_Clone (s : slice) : slice := s.

Definition newJsonChunker (jc : JsonCursor) (w : World)
  : outcome (World * option JsonChunker * option error) :=
  match newChunker true w with
  | (w1, Some e) => Ret (w1, None, Some e)
  | (w1, None) =>
    match slice_to (jsonBuffer (jsonScanner jc)) (valueOffset (jsonScanner jc)) with
    | None => Panic
    | Some prefix =>
      let initialBytes := bytes_Clone prefix in
      let scanner := mkScanner initialBytes (currentPath (jsonScanner jc)) (len initialBytes) in
      Ret (w1, Some (mkChunker (Some jc) scanner w1), None)
    end
  end.

Definition SerializeJsonToAddr (fuel : nat) (j : JSONWrapper Node J) (w : World)
  : outcome (World * (Node + error) * list Leaf) :=
  match j with
  | IndexedJsonDocument root => Ret (w, inl root, [])
  | OtherJson _ =>
    match MarshallJson j with
    | inr e => Ret (w, inr e, [])
    | inl jsonBytes =>
      match newEmptyJsonChunker w with
      | (_, Some jsonChunker, None) =>
        let jsonChunker := appendJsonToBuffer jsonBytes jsonChunker in
        match processBuffer fuel jsonChunker with
        | Panic => Panic
        | OutOfFuel => OutOfFuel
        | Ret (jsonChunker, _, ls) => withLeaves ls (Done fuel fuel jsonChunker)
        end
      | (w1, _, Some e) => Ret (w1, inr e, [])
      | (_, None, None) => Panic
      end
    end
  end.

(** The scanner contract under which the loop of [processBuffer] ends:
    every call that does not report end of input moves the offset
    forward, and not past the end of the buffer. *)
Definition scanner_progress : Prop :=
  forall buf p o p' o' st,
    scanStep buf p o = (p', o', st) -> isEOF st = false ->
    o < o' <= length buf.

(** The rounds of the loop of [Done] in a splice of [j0]: the chunker and
    the bytes at the head of a round, and the leaves committed by the
    rounds before it. *)
Inductive SpliceRound (pfuel : nat) (j0 : JsonChunker)
  : JsonChunker -> slice -> list Leaf -> Prop :=
| FirstRound jc jsonBytes b0 :
    jCur j0 = Some jc ->
    slice_from (jsonBuffer (jsonScanner jc)) (valueOffset (jsonScanner jc)) = Some jsonBytes ->
    slice_head jsonBytes = Some b0 ->
    SpliceRound pfuel j0
      (if needsComma b0 then appendJsonToBuffer (Some [comma]) j0 else j0) jsonBytes []
| NextRound j jsonBytes acc j2 err ls b w3 :
    SpliceRound pfuel j0 j jsonBytes acc ->
    processBuffer pfuel (appendJsonToBuffer jsonBytes j) = Ret (j2, err, ls) ->
    jsonBuffer (jScanner j2) = Some b ->
    cur_advance (world j2) = (w3, None) ->
    cur_Valid w3 = true ->
    SpliceRound pfuel j0 (setWorld w3 j2) (cur_currentValue w3) (acc ++ ls).

(** The leaves a run commits, as calls on the collaborators: from the
    first world, each leaf in turn is serialized, written to the store and
    added to the interior chunker under its key, all three with success. *)
Inductive Commits : World -> list Leaf -> World -> Prop :=
| CommitsNil w : Commits w [] w
| CommitsCons w key value node addr w1 w2 ls w3 :
    NodeFromBlob value = inl node ->
    ns_Write node w = (w1, inl addr) ->
    chunker_AddPair key addr w1 = (w2, None) ->
    Commits w2 ls w3 ->
    Commits w ((key, slice_bytes value) :: ls) w3.

(** A failed attempt to commit a leaf: the serializer, the store or the
    interior chunker returned an error. *)
Inductive Rejected : World -> World -> Prop :=
| RejectedBlob w value e :
    NodeFromBlob value = inr e ->
    Rejected w w
| RejectedWrite w value node w1 e :
    NodeFromBlob value = inl node ->
    ns_Write node w = (w1, inr e) ->
    Rejected w w1
| RejectedPair w key value node addr w1 w2 e :
    NodeFromBlob value = inl node ->
    ns_Write node w = (w1, inl addr) ->
    chunker_AddPair key addr w1 = (w2, Some e) ->
    Rejected w w2.

(** The scanner went from one state to another over [buf] through stops
    at each of which the boundary test refused the candidate. *)
Inductive Refused (buf : bytes) : jsonLocation -> nat -> jsonLocation -> nat -> Prop :=
| RefusedNone p o : Refused buf p o p o
| RefusedStop p o p1 o1 st p2 o2 :
    scanStep buf p o = (p1, o1, st) ->
    isEOF st = false ->
    o1 <= length buf ->
    crossesBoundary (locationKey p1) (Some (firstn o1 buf)) = false ->
    Refused buf p1 o1 p2 o2 ->
    Refused buf p o p2 o2.

(** The leaves cut from [buf] by a scan that starts in a given state: each
    leaf ends at the first stop at which the boundary test accepts the
    candidate, is keyed by the path of that stop, and the scan of the next
    leaf starts from that path on what is left of [buf]. *)
Inductive CutsFrom : bytes -> jsonLocation -> nat -> list Leaf -> Prop :=
| CutsNil buf p o : CutsFrom buf p o []
| CutsCons buf p0 o0 pm om p o st ls :
    Refused buf p0 o0 pm om ->
    scanStep buf pm om = (p, o, st) ->
    isEOF st = false ->
    o <= length buf ->
    crossesBoundary (locationKey p) (Some (firstn o buf)) = true ->
    CutsFrom (skipn o buf) p 0 ls ->
    CutsFrom buf p0 o0 ((locationKey p, firstn o buf) :: ls).

End Chunker.

(** ** A reference platform

    Small executable collaborators, used to run the chunker on concrete
    documents. *)

Module Reference.

Inductive RefError : Type :=
| StoreRejected
| ParseError
| NotMarshalled.

Inductive RefNode : Type :=
| Blob (value : bytes)
| AddressMap (entries : list (bytes * nat)).

(** Modelled from the spec: the node store, absent from the sources, is
    "append-only" and [Write] "writes an opaque node and returns a
    fixed-width address"; here the address is the position in the log.
    [faults] schedules which of the coming writes the store rejects.
    The interior chunker "receives (key, address) pairs"; [oldTree] holds
    the leaves of the original tree from the cursor's position on. *)
Record RefWorld : Type := mkWorld {
  written : list RefNode;
  faults : list bool;
  rejected : nat;
  pairs : list (bytes * nat);
  oldTree : list (bytes * nat * bytes)
}.

Definition refWrite (n : RefNode) (w : RefWorld) : RefWorld * (nat + RefError) :=
  match faults w with
  | true :: fs =>
    (mkWorld (written w) fs (S (rejected w)) (pairs w) (oldTree w), inr StoreRejected)
  | _ =>
    (mkWorld (written w ++ [n]) (tl (faults w)) (rejected w) (pairs w) (oldTree w),
     inl (length (written w)))
  end.

Definition refNewChunker (fromCursor : bool) (w : RefWorld) : RefWorld * option RefError :=
  (mkWorld (written w) (faults w) (rejected w)
     (if fromCursor then pairs w else []) (oldTree w), None).

Definition refAddPair (key : bytes) (addr : nat) (w : RefWorld) : RefWorld * option RefError :=
  (mkWorld (written w) (faults w) (rejected w) (pairs w ++ [(key, addr)]) (oldTree w), None).

(** Finalizing grafts what is left of the original tree after the pairs
    received. *)
Definition refChunkerDone (w : RefWorld) : RefWorld * (RefNode + RefError) :=
  let root := AddressMap (pairs w ++ map fst (oldTree w)) in
  match refWrite root w with
  | (w1, inl _) => (w1, inl root)
  | (w1, inr e) => (w1, inr e)
  end.

Definition refAdvance (w : RefWorld) : RefWorld * option RefError :=
  (mkWorld (written w) (faults w) (rejected w) (pairs w) (tl (oldTree w)), None).

Definition refValid (w : RefWorld) : bool :=
  match oldTree w with
  | [] => false
  | _ :: _ => true
  end.

Definition refCurrentValue (w : RefWorld) : slice :=
  match oldTree w with
  | [] => None
  | (_, v) :: _ => Some v
  end.

(** *** Locations *)

Inductive Step : Type :=
| Key (k : bytes)
| Index (i : nat).

Inductive ScannerState : Type :=
| startOfValue
| objectInitialElement
| arrayInitialElement
| endOfValueState.

(** The path holds the innermost step first. *)
Record RefLocation : Type := mkLoc {
  path : list Step;
  state : ScannerState
}.

Definition byteOfN (n : N) : byte :=
  match Byte.of_N (n mod 256) with
  | Some b => b
  | None => x00
  end.

(** Modelled from the spec: "Object keys are length-prefixed; array
    indices are encoded as fixed-width big-endian". *)
Definition encodeStep (s : Step) : bytes :=
  match s with
  | Key k => x01 :: byteOfN (N.of_nat (length k)) :: k
  | Index i =>
    let n := N.of_nat i in
    [x02; byteOfN (n / 16777216); byteOfN (n / 65536); byteOfN (n / 256); byteOfN n]
  end.

Definition stateByte (s : ScannerState) : byte :=
  match s with
  | startOfValue => xfe
  | objectInitialElement => xfd
  | arrayInitialElement => xfc
  | endOfValueState => xff
  end.

Definition refLocationKey (l : RefLocation) : bytes :=
  concat (map encodeStep (rev (path l))) ++ [stateByte (state l)].

Definition refLastPathElement (l : RefLocation) : bytes * bool :=
  match path l with
  | Key k :: _ => (k, false)
  | Index _ :: _ => ([], true)
  | [] => ([], false)
  end.

Definition refRoot : RefLocation := mkLoc [] startOfValue.

(** *** The scanner *)

Inductive ScanRes : Type :=
| Stop (l : RefLocation) (consumed : nat)
| Eof
| Bad.

(** Bytes up to and including the closing quote of a string whose opening
    quote was consumed. *)
Fixpoint stringEnd (l : bytes) (escaped : bool) : option nat :=
  match l with
  | [] => None
  | c :: r =>
    if escaped then option_map S (stringEnd r false)
    else if Byte.eqb c x5c then option_map S (stringEnd r true)
    else if Byte.eqb c x22 then Some 1
    else option_map S (stringEnd r false)
  end.

Definition isStructural (c : byte) : bool :=
  Byte.eqb c x2c || Byte.eqb c x5d || Byte.eqb c x7d.

(** Length of the run of bytes that belong to a number or a literal. *)
Fixpoint scalarEnd (l : bytes) : nat :=
  match l with
  | [] => 0
  | c :: r => if isStructural c then 0 else S (scalarEnd r)
  end.

(** One value stop at the start of a value: a scalar, or the opening of a
    container.  [pre] counts the bytes consumed before the value. *)
Definition scanValue (rest : bytes) (p : list Step) (pre : nat) : ScanRes :=
  match rest with
  | [] => Eof
  | c :: r =>
    if Byte.eqb c x7b then Stop (mkLoc p objectInitialElement) (pre + 1)
    else if Byte.eqb c x5b then Stop (mkLoc p arrayInitialElement) (pre + 1)
    else if Byte.eqb c x22 then
      match stringEnd r false with
      | Some n => Stop (mkLoc p endOfValueState) (pre + 1 + n)
      | None => Eof
      end
    else if isStructural c then Bad
    else Stop (mkLoc p endOfValueState) (pre + 1 + scalarEnd r)
  end.

(** An object member: the key, the colon and one value stop. *)
Definition scanKeyValue (rest : bytes) (p : list Step) (pre : nat) : ScanRes :=
  match rest with
  | [] => Eof
  | c :: r =>
    if Byte.eqb c x22 then
      match stringEnd r false with
      | None => Eof
      | Some n =>
        match skipn n r with
        | [] => Eof
        | c' :: r' =>
          if Byte.eqb c' x3a
          then scanValue r' (Key (firstn (n - 1) r) :: p) (pre + 1 + n + 1)
          else Bad
        end
      end
    else Bad
  end.

Definition scanRest (rest : bytes) (l : RefLocation) : ScanRes :=
  match rest with
  | [] => Eof
  | c :: r =>
    match state l with
    | startOfValue => scanValue rest (path l) 0
    | objectInitialElement =>
      if Byte.eqb c x7d then Stop (mkLoc (path l) endOfValueState) 1
      else scanKeyValue rest (path l) 0
    | arrayInitialElement =>
      if Byte.eqb c x5d then Stop (mkLoc (path l) endOfValueState) 1
      else scanValue rest (Index 0 :: path l) 0
    | endOfValueState =>
      if Byte.eqb c x2c then
        match path l with
        | Index i :: p => scanValue r (Index (S i) :: p) 1
        | Key _ :: p => scanKeyValue r p 1
        | [] => Bad
        end
      else if Byte.eqb c x7d || Byte.eqb c x5d then
        match path l with
        | _ :: p => Stop (mkLoc p endOfValueState) 1
        | [] => Bad
        end
      else Bad
    end
  end.

(** Modelled from the spec: the scanner's parser, absent from the sources,
    consumes "one value stop: a scalar, the opening or closing of a
    container, or the separator between elements", reports "end-of-input
    if the buffer is exhausted mid-parse" and a parse error on malformed
    JSON, which here moves the offset to the end of the buffer. *)
Definition refScanStep (buf : bytes) (l : RefLocation) (off : nat)
  : RefLocation * nat * scanStatus RefError :=
  match scanRest (skipn off buf) l with
  | Stop l' n => (l', off + n, ScanNil)
  | Eof => (l, off, ScanEOF)
  | Bad =>
    if Nat.ltb off (length buf) then (l, length buf, ScanErr ParseError)
    else (l, off, ScanEOF)
  end.

(** Modelled from the spec: "true iff no sibling has yet been emitted at
    the current container". *)
Definition refFirstElement (s : JsonScanner RefLocation) : bool :=
  match state (currentPath s) with
  | objectInitialElement | arrayInitialElement => true
  | _ => false
  end.

(** *** The boundary test *)

(** A stand-in for the seeded 32-bit hash. *)
Definition refHash (key : bytes) (salt : Z) : Z :=
  Z.of_N
    (fold_left (fun h b => ((h * 16777619 + Byte.to_N b) mod 4294967296)%N) key
       (Z.to_N salt mod 4294967296)%N).

(** A stand-in for the acceptance test, whose distribution needs floating
    point: the threshold grows linearly with the size. *)
Definition refAccept (size thisSize hash : Z) : bool :=
  (hash * 16384 <? thisSize * 2 ^ 32)%Z.

(** *** Documents *)

#[warnings="-register-all"]
Inductive Json : Type :=
| JNull
| JBool (b : bool)
| JNumber (digits : bytes)
| JString (s : bytes)
| JArray (items : list Json)
| JObject (members : list (bytes * Json)).

(** Modelled from the spec: [MarshallJson], absent from the sources,
    produces "canonical JSON bytes" with "no insignificant whitespace". *)
Fixpoint marshal (j : Json) : bytes :=
  match j with
  | JNull => [x6e; x75; x6c; x6c]
  | JBool true => [x74; x72; x75; x65]
  | JBool false => [x66; x61; x6c; x73; x65]
  | JNumber d => d
  | JString s => x22 :: s ++ [x22]
  | JArray items =>
    x5b ::
    (fix go (l : list Json) : bytes :=
       match l with
       | [] => []
       | [x] => marshal x
       | x :: r => marshal x ++ x2c :: go r
       end) items ++ [x5d]
  | JObject members =>
    x7b ::
    (fix go (l : list (bytes * Json)) : bytes :=
       match l with
       | [] => []
       | [(k, x)] => x22 :: k ++ x22 :: x3a :: marshal x
       | (k, x) :: r => x22 :: k ++ x22 :: x3a :: marshal x ++ x2c :: go r
       end) members ++ [x7d]
  end.

(** Marshalling an indexed document would read its tree back; the
    reference platform does not provide it. *)
Definition refMarshall (j : JSONWrapper RefNode Json) : slice + RefError :=
  match j with
  | IndexedJsonDocument _ => inr NotMarshalled
  | OtherJson v => inl (Some (marshal v))
  end.

#[export] Instance refPlatform : Platform := {|
  error := RefError;
  Node := RefNode;
  Addr := nat;
  World := RefWorld;
  jsonLocation := RefLocation;
  locationKey := refLocationKey;
  getLastPathElement := refLastPathElement;
  newRootLocation := refRoot;
  scanStep := refScanStep;
  firstElementOrEndOfEmptyValue := refFirstElement;
  endOfValue := xff;
  minChunkSize := 512;
  maxChunkSize := 16384;
  levelSalt0 := 0;
  xxHash32 := refHash;
  weibullCheck := refAccept;
  J := Json;
  MarshallJson := refMarshall;
  NodeFromBlob := fun v => inl (Blob (slice_bytes v));
  ns_Write := refWrite;
  newChunker := refNewChunker;
  chunker_AddPair := refAddPair;
  chunker_Done := refChunkerDone;
  cur_advance := refAdvance;
  cur_Valid := refValid;
  cur_currentValue := refCurrentValue
|}.

Definition emptyWorld : RefWorld := mkWorld [] [] 0 [] [].

(** A store that rejects the next write and accepts the following ones. *)
Definition faultyWorld : RefWorld := mkWorld [] [true] 0 [] [].

(** An array of a thousand numbers [12], 3001 bytes. *)
Definition mediumDoc : Json := JArray (repeat (JNumber [x31; x32]) (N.to_nat 1000)).

(** A string of 16400 letters: one scalar longer than [maxChunkSize]. *)
Definition longString : bytes := x22 :: repeat x61 (N.to_nat 16400) ++ [x22].

Definition longDoc : Json := JString (repeat x61 (N.to_nat 16400)).

(** A splice at the head of the array [["aaa...a",1]], whose tree has the
    two leaves [["aaa...a"] and [,1]]: the cursor stands after the opening
    bracket, and the chunker has received the bracket and the new first
    element [0]. *)
Definition spliceWorld : RefWorld :=
  mkWorld [Blob (x5b :: longString); Blob [x2c; x31; x5d]] [] 0 []
    [(refLocationKey (mkLoc [Index 0] endOfValueState), 0, x5b :: longString);
     ([xff], 1, [x2c; x31; x5d])].

Definition spliceCursor : JsonCursor :=
  mkCursor (mkScanner (Some (x5b :: longString)) (mkLoc [] arrayInitialElement) 1).

Definition spliceChunker : JsonChunker :=
  mkChunker (Some spliceCursor)
    (mkScanner (Some [x5b; x30]) (mkLoc [Index 0] endOfValueState) 2) spliceWorld.

(** What the first round of [Done] on [spliceChunker] commits, and the
    chunker it leaves. *)
Definition spliceLeaf : Leaf :=
  (refLocationKey (mkLoc [Index 1] endOfValueState), x5b :: x30 :: x2c :: longString).

Definition spliceChunkerAfter : JsonChunker :=
  mkChunker (Some spliceCursor) (mkScanner None (mkLoc [Index 1] endOfValueState) 0)
    (mkWorld (written spliceWorld ++ [Blob (snd spliceLeaf)]) [] 0
       [(fst spliceLeaf, 2)] (oldTree spliceWorld)).

(** The chunker of a full write of [longDoc] to [faultyWorld], before and
    after [processBuffer], and the world the write ends in. *)
Definition faultyChunker : JsonChunker :=
  mkChunker None (mkScanner None refRoot 0) faultyWorld.

Definition faultyChunkerAfter : JsonChunker :=
  mkChunker None (mkScanner (Some longString) (mkLoc [] endOfValueState) (length longString))
    (mkWorld [] [] 1 [] []).

Definition faultyWorldAfter : RefWorld :=
  mkWorld [Blob longString; AddressMap [([xff], 0)]] [] 1 [([xff], 0)] [].

(** The world a full write of [longDoc] to [emptyWorld] ends in. *)
Definition longDocWorld : RefWorld :=
  mkWorld [Blob longString; Blob []; AddressMap [([xff], 0); ([xff], 1)]] [] 0
    [([xff], 0); ([xff], 1)] [].

(** The bytes of [["aaa...a",1]], a chunker that holds them unscanned, and
    what [processBuffer] makes of it: one leaf up to the end of the string,
    and the rest left in the buffer. *)
Definition arrayBytes : bytes := x5b :: longString ++ [x2c; x31; x5d].

Definition arrayChunker : JsonChunker :=
  mkChunker None (mkScanner (Some arrayBytes) refRoot 0) emptyWorld.

Definition arrayLeaf : Leaf :=
  (refLocationKey (mkLoc [Index 0] endOfValueState), x5b :: longString).

Definition arrayChunkerAfter : JsonChunker :=
  mkChunker None (mkScanner (Some [x2c; x31; x5d]) (mkLoc [] endOfValueState) 3)
    (mkWorld [Blob (snd arrayLeaf)] [] 0 [(fst arrayLeaf, 0)] []).

(** The root and the world [Done] on [spliceChunker] ends in. *)
Definition spliceRoot : RefNode := AddressMap [(fst spliceLeaf, 2); ([xff], 1)].

Definition spliceWorldDone : RefWorld :=
  mkWorld (written spliceWorld ++ [Blob (snd spliceLeaf); spliceRoot]) [] 0
    [(fst spliceLeaf, 2)] [([xff], 1, [x2c; x31; x5d])].

(** The empty object, marshalled as [{}]. *)
Definition emptyObject : Json := JObject [].

(** A cursor at the head of the leaf [,1]]. *)
Definition commaCursor : JsonCursor :=
  mkCursor (mkScanner (Some [x2c; x31; x5d]) (mkLoc [Index 0] endOfValueState) 0).

(** A chunker that received the opening brace of an object and stands
    after it. *)
Definition keyChunker : JsonChunker :=
  mkChunker None (mkScanner (Some [x7b]) (mkLoc [] objectInitialElement) 1) emptyWorld.

(** A chunker that holds [[1,2], of which the scanner has passed [[1]: two
    bytes are still to be scanned. *)
Definition pendingChunker : JsonChunker :=
  mkChunker None (mkScanner (Some [x5b; x31; x2c; x32]) (mkLoc [Index 0] endOfValueState) 2)
    emptyWorld.

(** A cursor that stands at the end of its leaf. *)
Definition endCursor : JsonCursor :=
  mkCursor (mkScanner (Some [x31]) (mkLoc [] endOfValueState) 1).

Definition endChunker : JsonChunker :=
  mkChunker (Some endCursor) (mkScanner (Some [x31]) (mkLoc [] endOfValueState) 1)
    emptyWorld.

(** A candidate chunk of 2^32 bytes. *)
Definition hugeCandidate : slice := Some (repeat x00 (Z.to_nat 4294967296)).

(** A chunker without cursor that holds [{}]. *)
Definition fullChunker : JsonChunker :=
  mkChunker None (mkScanner (Some [x7b; x7d]) (mkLoc [] endOfValueState) 2) emptyWorld.

End Reference.

(** ** Facts about slices and leaves *)

Section Facts.

Context {P : Platform}.

Lemma slice_to_bytes (s a : slice) (n : nat) :
  slice_to s n = Some a -> slice_bytes a = firstn n (slice_bytes s) /\ n <= len s.
Proof.
  unfold slice_to, len. destruct s as [b|]; simpl.
  - destruct (Nat.leb n (length b)) eqn:E; [|discriminate].
    intros [= <-]. apply Nat.leb_le in E. auto.
  - destruct (Nat.eqb n 0) eqn:E; [|discriminate].
    intros [= <-]. apply Nat.eqb_eq in E. subst. auto.
Qed.

Lemma slice_from_bytes (s a : slice) (n : nat) :
  slice_from s n = Some a -> slice_bytes a = skipn n (slice_bytes s) /\ n <= len s.
Proof.
  unfold slice_from, len. destruct s as [b|]; simpl.
  - destruct (Nat.leb n (length b)) eqn:E; [|discriminate].
    intros [= <-]. apply Nat.leb_le in E. auto.
  - destruct (Nat.eqb n 0) eqn:E; [|discriminate].
    intros [= <-]. apply Nat.eqb_eq in E. subst. auto.
Qed.

Lemma slice_to_in_range (s : slice) (n : nat) :
  n <= len s -> exists a, slice_to s n = Some a.
Proof.
  unfold slice_to, len. destruct s as [b|]; simpl; intros H.
  - apply Nat.leb_le in H. rewrite H. eauto.
  - assert (n = 0) by lia. subst. simpl. eauto.
Qed.

Lemma slice_from_in_range (s : slice) (n : nat) :
  n <= len s -> exists a, slice_from s n = Some a.
Proof.
  unfold slice_from, len. destruct s as [b|]; simpl; intros H.
  - apply Nat.leb_le in H. rewrite H. eauto.
  - assert (n = 0) by lia. subst. simpl. eauto.
Qed.

Lemma leafBytes_app (l1 l2 : list Leaf) :
  leafBytes (l1 ++ l2) = leafBytes l1 ++ leafBytes l2.
Proof. unfold leafBytes. now rewrite map_app, concat_app. Qed.

Lemma leafBytes_cons (l : Leaf) (ls : list Leaf) :
  leafBytes (l :: ls) = snd l ++ leafBytes ls.
Proof. reflexivity. Qed.

Lemma withLeaves_Ret {X : Type} (ls : list Leaf) (r : outcome (X * list Leaf)) x ls' :
  withLeaves ls r = Ret (x, ls') ->
  exists ls0, r = Ret (x, ls0) /\ ls' = ls ++ ls0.
Proof.
  destruct r as [[x0 ls0]| |]; simpl; try discriminate.
  intros [= <- <-]. eauto.
Qed.

(** The boundary test looks at the length of the candidate only. *)
Lemma crossesBoundary_len (key : bytes) (a b : slice) :
  len a = len b -> crossesBoundary key a = crossesBoundary key b.
Proof. unfold crossesBoundary. now intros ->. Qed.

(** A candidate that is cut is at least [minChunkSize] long. *)
Lemma crossesBoundary_min (key : bytes) (buf : slice) :
  crossesBoundary key buf = true -> (minChunkSize <= Z.of_nat (len buf))%Z.
Proof.
  unfold crossesBoundary, uint32.
  destruct (Z.ltb_spec (Z.of_nat (len buf) mod 2 ^ 32) minChunkSize) as [|Hge];
    [discriminate|].
  intros _.
  pose proof (Z.mod_le (Z.of_nat (len buf)) (2 ^ 32)).
  lia.
Qed.

Lemma createNewLeafChunk_fields (key : bytes) (value : slice) (j j1 : JsonChunker)
    (err : option error) :
  createNewLeafChunk key value j = (j1, err) ->
  jCur j1 = jCur j /\ jScanner j1 = jScanner j.
Proof.
  unfold createNewLeafChunk.
  destruct (NodeFromBlob value) as [node|e].
  - destruct (ns_Write node (world j)) as [w1 [addr|e]].
    + destruct (chunker_AddPair key addr w1) as [w2 e2]. intros [= <- <-]. auto.
    + intros [= <- <-]. auto.
  - intros [= <- <-]. auto.
Qed.

Lemma appendJsonToBuffer_bytes (jsonBytes : slice) (j : JsonChunker) :
  slice_bytes (jsonBuffer (jScanner (appendJsonToBuffer jsonBytes j))) =
  slice_bytes (jsonBuffer (jScanner j)) ++ slice_bytes jsonBytes.
Proof.
  unfold appendJsonToBuffer.
  destruct (jsonBuffer (jScanner j)) as [b|] eqn:E; simpl; reflexivity.
Qed.

Lemma appendJsonToBuffer_fields (jsonBytes : slice) (j : JsonChunker) :
  let j1 := appendJsonToBuffer jsonBytes j in
  jCur j1 = jCur j /\ world j1 = world j /\
  currentPath (jScanner j1) = currentPath (jScanner j) /\
  valueOffset (jScanner j1) = valueOffset (jScanner j).
Proof.
  unfold appendJsonToBuffer.
  destruct (jsonBuffer (jScanner j)); simpl; auto.
Qed.

(** What one run of [processBuffer] keeps: the leaves it commits followed
    by what stays in the buffer are the buffer it started from; every
    leaf passed the boundary test; and the buffer is replaced only by a
    cut, which leaves nil or a non-empty rest. *)
Lemma processBuffer_inv (fuel : nat) :
  forall (j j' : JsonChunker) (err : option error) (ls : list Leaf),
  processBuffer fuel j = Ret (j', err, ls) ->
  leafBytes ls ++ slice_bytes (jsonBuffer (jScanner j')) =
    slice_bytes (jsonBuffer (jScanner j)) /\
  Forall (fun l => crossesBoundary (fst l) (Some (snd l)) = true) ls /\
  jCur j' = jCur j /\
  (ls = [] -> jsonBuffer (jScanner j') = jsonBuffer (jScanner j)) /\
  (ls <> [] -> jsonBuffer (jScanner j') = None \/
               exists b, jsonBuffer (jScanner j') = Some b /\ b <> []).
Proof.
  induction fuel as [|fuel IH]; intros j j' err ls; simpl; [discriminate|].
  unfold AdvanceToNextLocation.
  destruct (scanStep _ _ _) as [[p o] st].
  destruct (isEOF st).
  { intros [= <- <- <-]. simpl. repeat split; auto; congruence. }
  cbn [jsonBuffer currentPath valueOffset].
  destruct (slice_to (jsonBuffer (jScanner j)) o) as [value|] eqn:Hto; [|discriminate].
  destruct (slice_to_bytes _ _ Hto) as [Hv Hle].
  destruct (crossesBoundary (locationKey p) value) eqn:Hcross.
  2:{ intros H. apply IH in H. simpl in H. exact H. }
  destruct (createNewLeafChunk _ _ _) as [j2 [e|]] eqn:Hleaf.
  { intros [= <- <- <-].
    apply createNewLeafChunk_fields in Hleaf. destruct Hleaf as [Hc Hs].
    rewrite Hc, Hs. simpl. repeat split; auto; congruence. }
  apply createNewLeafChunk_fields in Hleaf. destruct Hleaf as [Hc Hs].
  simpl in Hc, Hs.
  unfold atEndOfChunk. cbn [jsonBuffer valueOffset].
  destruct (Nat.eqb o (len (jsonBuffer (jScanner j)))) eqn:Hend; cbn [negb].
  - apply Nat.eqb_eq in Hend.
    intros H. apply withLeaves_Ret in H. destruct H as (ls0 & H & ->).
    apply IH in H. cbn [setScanner jScanner jsonBuffer ScanJsonFromMiddle jCur] in H.
    destruct H as (Hcat & Hall & Hcur & Hnil & Hcut).
    assert (Hvalue : slice_bytes value = slice_bytes (jsonBuffer (jScanner j))).
    { rewrite Hv, Hend. apply firstn_all. }
    repeat split.
    + rewrite leafBytes_app, <- app_assoc, Hcat. cbn. now rewrite !app_nil_r.
    + constructor; [exact Hcross | exact Hall].
    + congruence.
    + discriminate.
    + intros _. destruct ls0 as [|l0 ls0].
      * left. now apply Hnil.
      * apply Hcut. discriminate.
  - apply Nat.eqb_neq in Hend.
    destruct (slice_from (jsonBuffer (jScanner j)) o) as [rest|] eqn:Hfrom; [|discriminate].
    destruct (slice_from_bytes _ _ Hfrom) as [Hr _].
    intros H. apply withLeaves_Ret in H. destruct H as (ls0 & H & ->).
    apply IH in H. cbn [setScanner jScanner jsonBuffer ScanJsonFromMiddle jCur] in H.
    destruct H as (Hcat & Hall & Hcur & Hnil & Hcut).
    repeat split.
    + rewrite leafBytes_app, <- app_assoc, Hcat. cbn. rewrite app_nil_r, Hv, Hr.
      apply firstn_skipn.
    + constructor; [exact Hcross | exact Hall].
    + congruence.
    + discriminate.
    + intros _. destruct ls0 as [|l0 ls0].
      * right. rewrite (Hnil eq_refl).
        destruct (jsonBuffer (jScanner j)) as [b|] eqn:Hb.
        -- unfold slice_from in Hfrom.
           destruct (Nat.leb o (length b)) eqn:Hob; [|discriminate].
           injection Hfrom as <-. eexists. split; [reflexivity|].
           apply Nat.leb_le in Hob. unfold len in Hend. simpl in Hend.
           intros Hnil'. apply (f_equal (@length byte)) in Hnil'.
           rewrite length_skipn in Hnil'. simpl in Hnil'. lia.
        -- unfold len in Hle, Hend. simpl in Hle, Hend. lia.
      * apply Hcut. discriminate.
Qed.

Lemma withLeaves_nil {X : Type} (r : outcome (X * list Leaf)) :
  withLeaves [] r = r.
Proof. destruct r as [[x ls]| |]; reflexivity. Qed.

Lemma withLeaves_app {X : Type} (l1 l2 : list Leaf) (r : outcome (X * list Leaf)) :
  withLeaves l1 (withLeaves l2 r) = withLeaves (l1 ++ l2) r.
Proof. destruct r as [[x ls]| |]; simpl; try reflexivity. now rewrite app_assoc. Qed.

(** Under the scanner contract the loop of [processBuffer] ends within
    as many calls as bytes are left to scan, plus one, and no slice
    expression is out of range. *)
Lemma processBuffer_total (Hscan : scanner_progress) (fuel : nat) :
  forall j : JsonChunker,
  len (jsonBuffer (jScanner j)) - valueOffset (jScanner j) < fuel ->
  exists r, processBuffer fuel j = Ret r.
Proof.
  induction fuel as [|fuel IH]; intros j Hfuel; [lia|]. simpl.
  unfold AdvanceToNextLocation.
  destruct (scanStep _ _ _) as [[p o] st] eqn:Hstep.
  destruct (isEOF st) eqn:Heof; [eauto|].
  destruct (Hscan _ _ _ _ _ _ Hstep Heof) as [Hlt Hle].
  fold (len (jsonBuffer (jScanner j))) in Hle.
  cbn [jsonBuffer currentPath valueOffset].
  destruct (slice_to_in_range (jsonBuffer (jScanner j)) Hle) as [value ->].
  destruct (crossesBoundary (locationKey p) value).
  2:{ apply IH. simpl. lia. }
  destruct (createNewLeafChunk _ _ _) as [j2 [e|]]; [eauto|].
  unfold atEndOfChunk. cbn [jsonBuffer valueOffset].
  destruct (Nat.eqb o (len (jsonBuffer (jScanner j)))) eqn:Hend; cbn [negb].
  - destruct (IH (setScanner (ScanJsonFromMiddle None p) j2)) as [[[j3 e3] ls3] ->].
    { simpl. lia. }
    simpl. eauto.
  - destruct (slice_from_in_range (jsonBuffer (jScanner j)) Hle) as [rest Hrest].
    rewrite Hrest.
    destruct (slice_from_bytes _ _ Hrest) as [Hbytes _].
    destruct (IH (setScanner (ScanJsonFromMiddle rest p) j2)) as [[[j3 e3] ls3] ->].
    { simpl. unfold len. rewrite Hbytes, length_skipn. unfold len in Hfuel, Hle. lia. }
    simpl. eauto.
Qed.

(** [writeKey] touches the scanner only, and moves the offset by as many
    bytes as it adds to the buffer. *)
Lemma writeKey_keeps_distance (keyPath : jsonLocation) (j : JsonChunker) :
  world (writeKey keyPath j) = world j /\
  len (jsonBuffer (jScanner (writeKey keyPath j))) + valueOffset (jScanner j) =
    valueOffset (jScanner (writeKey keyPath j)) + len (jsonBuffer (jScanner j)).
Proof.
  unfold writeKey, appendJsonWithoutSplitting, skipBytes, quotedKey, len.
  destruct (getLastPathElement keyPath) as [k isArray].
  destruct (firstElementOrEndOfEmptyValue (jScanner j)), isArray; cbn [negb];
    unfold appendJsonToBuffer;
    destruct (jsonBuffer (jScanner j)) as [b|]; cbn;
    rewrite ?length_app; cbn; rewrite ?length_app; cbn;
    split; try reflexivity; lia.
Qed.

(** A scanner that keeps its contract reports end of input once the offset
    is at the end of the buffer. *)
Lemma scanner_progress_EOF_at_end (Hscan : scanner_progress) (s : JsonScanner jsonLocation) :
  atEndOfChunk s = true -> isEOF (snd (AdvanceToNextLocation s)) = true.
Proof.
  unfold atEndOfChunk, AdvanceToNextLocation, len. intros Hend.
  apply Nat.eqb_eq in Hend.
  destruct (scanStep _ _ _) as [[p o] st] eqn:Hstep. simpl.
  destruct (isEOF st) eqn:Heof; [reflexivity|].
  destruct (Hscan _ _ _ _ _ _ Hstep Heof). lia.
Qed.

(** Under the scanner contract, [processBuffer] on a scanner at the end of
    its buffer reports no leaf and no error and leaves buffer and world as
    they are. *)
Lemma processBuffer_at_end_of_chunk (Hscan : scanner_progress) (fuel : nat)
    (j : JsonChunker) :
  atEndOfChunk (jScanner j) = true ->
  exists j',
    processBuffer (S fuel) j = Ret (j', None, []) /\
    jsonBuffer (jScanner j') = jsonBuffer (jScanner j) /\
    world j' = world j /\ jCur j' = jCur j.
Proof.
  intros Hend. simpl.
  pose proof (scanner_progress_EOF_at_end Hscan _ Hend) as Heof.
  unfold AdvanceToNextLocation in *.
  destruct (scanStep _ _ _) as [[p o] st]. simpl in Heof. rewrite Heof.
  eexists. split; [reflexivity|]. auto.
Qed.

(** What a cut contributes to the leaves of [processBuffer]. *)
Lemma createNewLeafChunk_commits (key : bytes) (value : slice) (j j1 : JsonChunker) :
  createNewLeafChunk key value j = (j1, None) ->
  Commits (world j) [(key, slice_bytes value)] (world j1).
Proof.
  unfold createNewLeafChunk.
  destruct (NodeFromBlob value) as [node|e] eqn:Hnode; [|discriminate].
  destruct (ns_Write node (world j)) as [w1 [addr|e]] eqn:Hwrite; [|discriminate].
  destruct (chunker_AddPair key addr w1) as [w2 e2] eqn:Hadd.
  intros [= <- ->]. simpl.
  eapply CommitsCons; eauto. constructor.
Qed.

Lemma Commits_app (w1 w2 w3 : World) (l1 l2 : list Leaf) :
  Commits w1 l1 w2 -> Commits w2 l2 w3 -> Commits w1 (l1 ++ l2) w3.
Proof.
  induction 1; simpl; intros; [assumption|].
  eapply CommitsCons; eauto.
Qed.

Lemma createNewLeafChunk_rejected (key : bytes) (value : slice) (j j1 : JsonChunker)
    (e : error) :
  createNewLeafChunk key value j = (j1, Some e) ->
  Rejected (world j) (world j1).
Proof.
  unfold createNewLeafChunk.
  destruct (NodeFromBlob value) as [node|e0] eqn:Hnode.
  - destruct (ns_Write node (world j)) as [w1 [addr|e1]] eqn:Hwrite.
    + destruct (chunker_AddPair key addr w1) as [w2 e2] eqn:Hadd.
      intros [= <- ->]. simpl. eapply RejectedPair; eauto.
    + intros [= <- _]. simpl. eapply RejectedWrite; eauto.
  - intros [= <- _]. eapply RejectedBlob; eauto.
Qed.

(** What one run of [processBuffer] does to the collaborators: it commits
    its leaves one after the other, and when it returns an error one more
    attempt was rejected. *)
Lemma processBuffer_world (fuel : nat) :
  forall (j j' : JsonChunker) (err : option error) (ls : list Leaf),
  processBuffer fuel j = Ret (j', err, ls) ->
  exists wc,
    Commits (world j) ls wc /\
    match err with
    | None => world j' = wc
    | Some _ => Rejected wc (world j')
    end.
Proof.
  induction fuel as [|fuel IH]; intros j j' err ls; simpl; [discriminate|].
  destruct (AdvanceToNextLocation (jScanner j)) as [s1 st].
  destruct (isEOF st).
  { intros [= <- <- <-]. exists (world j). split; [constructor | reflexivity]. }
  destruct (slice_to (jsonBuffer s1) (valueOffset s1)) as [value|]; [|discriminate].
  destruct (crossesBoundary _ value).
  2:{ intros H. apply IH in H. exact H. }
  destruct (createNewLeafChunk _ _ _) as [j2 [e|]] eqn:Hleaf.
  { intros [= <- <- <-]. exists (world j). split; [constructor|].
    apply createNewLeafChunk_rejected in Hleaf. exact Hleaf. }
  apply createNewLeafChunk_commits in Hleaf. simpl in Hleaf.
  destruct (if negb (atEndOfChunk s1) then _ else _) as [newBuffer|]; [|discriminate].
  intros H. apply withLeaves_Ret in H. destruct H as (ls0 & H & ->).
  apply IH in H. destruct H as (wc & Hc & Hw). simpl in Hc.
  exists wc. split; [|exact Hw].
  eapply Commits_app; eauto.
Qed.

(** A stop that is refused can be put in front of the cuts that follow. *)
Lemma CutsFrom_refused (buf : bytes) (p : jsonLocation) (o : nat) (p1 : jsonLocation)
    (o1 : nat) (st : scanStatus error) (ls : list Leaf) :
  scanStep buf p o = (p1, o1, st) ->
  isEOF st = false ->
  o1 <= length buf ->
  crossesBoundary (locationKey p1) (Some (firstn o1 buf)) = false ->
  CutsFrom buf p1 o1 ls ->
  CutsFrom buf p o ls.
Proof.
  intros Hstep Heof Hle Hno Hcuts.
  inversion Hcuts as [|? ? ? pm om p2 o2 st2 ls0 Href Hstep2 Heof2 Hle2 Hyes Hrest]; subst.
  - constructor.
  - eapply CutsCons; eauto. eapply RefusedStop; eauto.
Qed.

(** The leaves of [processBuffer] are cut at the first stops the boundary
    test accepts, each scan starting from the path of the cut before. *)
Lemma processBuffer_cuts (fuel : nat) :
  forall (j j' : JsonChunker) (err : option error) (ls : list Leaf),
  processBuffer fuel j = Ret (j', err, ls) ->
  CutsFrom (slice_bytes (jsonBuffer (jScanner j))) (currentPath (jScanner j))
    (valueOffset (jScanner j)) ls.
Proof.
  induction fuel as [|fuel IH]; intros j j' err ls; simpl; [discriminate|].
  unfold AdvanceToNextLocation.
  destruct (scanStep _ _ _) as [[p o] st] eqn:Hstep.
  destruct (isEOF st) eqn:Heof.
  { intros [= <- <- <-]. constructor. }
  cbn [jsonBuffer currentPath valueOffset].
  destruct (slice_to (jsonBuffer (jScanner j)) o) as [value|] eqn:Hto; [|discriminate].
  destruct (slice_to_bytes _ _ Hto) as [Hv Hle]. unfold len in Hle.
  assert (Hcand : crossesBoundary (locationKey p) value =
                  crossesBoundary (locationKey p)
                    (Some (firstn o (slice_bytes (jsonBuffer (jScanner j)))))).
  { apply crossesBoundary_len. unfold len. simpl. now rewrite Hv. }
  rewrite Hcand.
  destruct (crossesBoundary (locationKey p)
              (Some (firstn o (slice_bytes (jsonBuffer (jScanner j)))))) eqn:Hcross.
  2:{ intros H. apply IH in H. simpl in H.
      eapply CutsFrom_refused; eauto. }
  destruct (createNewLeafChunk _ _ _) as [j2 [e|]] eqn:Hleaf.
  { intros [= <- <- <-]. constructor. }
  rewrite Hv.
  assert (Hrest : forall rest j3,
            slice_bytes rest = skipn o (slice_bytes (jsonBuffer (jScanner j))) ->
            withLeaves [(locationKey p, firstn o (slice_bytes (jsonBuffer (jScanner j))))]
              (processBuffer fuel (setScanner (ScanJsonFromMiddle rest p) j3)) =
              Ret (j', err, ls) ->
            CutsFrom (slice_bytes (jsonBuffer (jScanner j))) (currentPath (jScanner j))
              (valueOffset (jScanner j)) ls).
  { intros rest j3 Hbytes H.
    apply withLeaves_Ret in H. destruct H as (ls0 & H & ->).
    apply IH in H. cbn [setScanner jScanner jsonBuffer currentPath valueOffset
                        ScanJsonFromMiddle] in H.
    rewrite Hbytes in H. simpl.
    eapply CutsCons; eauto. constructor. }
  unfold atEndOfChunk. cbn [jsonBuffer valueOffset].
  destruct (Nat.eqb o (len (jsonBuffer (jScanner j)))) eqn:Hend; cbn [negb].
  - apply Nat.eqb_eq in Hend. apply (Hrest None).
    simpl. rewrite Hend. unfold len. now rewrite skipn_all.
  - destruct (slice_from (jsonBuffer (jScanner j)) o) as [rest|] eqn:Hfrom; [|discriminate].
    apply (Hrest rest). now destruct (slice_from_bytes _ _ Hfrom).
Qed.


(** ** Properties of the chunker *)

(** C1. A full write cuts the marshalled document into consecutive pieces:
    whenever [SerializeJsonToAddr] returns a root for a document that is
    not an indexed one, the leaves it committed, put end to end in the
    order in which they were handed to the interior chunker, are the bytes
    [MarshallJson] produced, and each leaf is the substring that starts
    where the leaves before it end.  The leaves are what the collaborators
    received: after [newChunker], the cuts were written to the store and
    added to the interior chunker one after the other, each cut at a
    scanner stop reached from the stop of the cut before and keyed by its
    path; then, after at most one rejected attempt, the final leaf was
    written and added under the end-of-document key, and the root is the
    one the interior chunker's [Done] returned on the world so reached.
    Under the scanner contract the call returns with a fuel of the
    document's length plus one. *)
Theorem serialize_leaves_reassemble (D : J) (b : slice) :
  MarshallJson (OtherJson D) = inl b ->
  (forall fuel w w' root ls,
     SerializeJsonToAddr fuel (OtherJson D) w = Ret (w', inl root, ls) ->
     leafBytes ls = slice_bytes b /\
     (forall pre l post, ls = pre ++ l :: post ->
        snd l = firstn (length (snd l)) (skipn (length (leafBytes pre)) (slice_bytes b))) /\
     exists w1 cut rest wc w2 wb,
       newChunker false w = (w1, None) /\
       ls = cut ++ [([endOfValue], rest)] /\
       CutsFrom (slice_bytes b) newRootLocation 0 cut /\
       Commits w1 cut wc /\
       (w2 = wc \/ Rejected wc w2) /\
       Commits w2 [([endOfValue], rest)] wb /\
       chunker_Done wb = (w', inl root)) /\
  (scanner_progress ->
   forall w, exists w' r ls,
     SerializeJsonToAddr (S (len b)) (OtherJson D) w = Ret (w', r, ls)).
Proof.
  intros HM. split.
  - intros fuel w w' root ls. unfold SerializeJsonToAddr. rewrite HM.
    unfold newEmptyJsonChunker.
    destruct (newChunker false w) as [w1 [e|]] eqn:Hnew; [discriminate|].
    destruct (processBuffer fuel _) as [[[j2 e2] ls1]| |] eqn:Hpb; try discriminate.
    intros H. apply withLeaves_Ret in H. destruct H as (ls2 & HD & ->).
    pose proof (processBuffer_world _ _ Hpb) as (wc & Hcommits & Hworld).
    pose proof (processBuffer_cuts _ _ Hpb) as Hcuts.
    apply processBuffer_inv in Hpb.
    destruct Hpb as (Hcat & _ & Hcur & _).
    rewrite appendJsonToBuffer_bytes in Hcat, Hcuts.
    destruct (appendJsonToBuffer_fields b
                (mkChunker None (ScanJsonFromBeginning None) w1))
      as (Hc0 & Hw0 & Hp0 & Ho0).
    rewrite Hp0, Ho0 in Hcuts. rewrite Hw0 in Hcommits.
    simpl in Hcat, Hcuts, Hcommits.
    rewrite Hc0 in Hcur. simpl in Hcur.
    unfold Done in HD. rewrite Hcur in HD. unfold finalLeaf in HD.
    destruct (createNewLeafChunk _ _ j2) as [j3 [e|]] eqn:Hleaf; [discriminate|].
    apply createNewLeafChunk_commits in Hleaf.
    destruct (chunker_Done (world j3)) as [w4 r4] eqn:Hdone.
    injection HD as Hw Hr Hls. subst ls2 w4 r4.
    assert (Hall : leafBytes (ls1 ++ [(endOfDocumentKey, slice_bytes (jsonBuffer (jScanner j2)))])
                   = slice_bytes b).
    { rewrite leafBytes_app. cbn. now rewrite app_nil_r. }
    split; [exact Hall|]. split.
    + intros pre l post Hsplit. rewrite <- Hall, Hsplit.
      rewrite leafBytes_app, leafBytes_cons.
      rewrite skipn_app, skipn_all, Nat.sub_diag. simpl.
      rewrite firstn_app, firstn_all, Nat.sub_diag. simpl. now rewrite app_nil_r.
    + exists w1, ls1, (slice_bytes (jsonBuffer (jScanner j2))), wc, (world j2), (world j3).
      repeat split; auto.
      destruct e2; [right | left]; auto.
  - intros Hscan w. unfold SerializeJsonToAddr. rewrite HM.
    unfold newEmptyJsonChunker.
    destruct (newChunker false w) as [w1 [e|]]; [eauto|].
    destruct (processBuffer_total Hscan (fuel := S (len b))
                (appendJsonToBuffer b (mkChunker None (ScanJsonFromBeginning None) w1)))
      as [[[j2 e2] ls1] Hpb].
    { unfold len. rewrite appendJsonToBuffer_bytes. simpl. lia. }
    rewrite Hpb.
    pose proof (processBuffer_inv _ _ Hpb) as (_ & _ & Hcur & _).
    destruct (appendJsonToBuffer_fields b
                (mkChunker None (ScanJsonFromBeginning None) w1)) as (Hc0 & _).
    rewrite Hc0 in Hcur. simpl in Hcur.
    unfold Done. rewrite Hcur. unfold finalLeaf.
    destruct (createNewLeafChunk _ _ j2) as [j3 [e|]]; simpl; [eauto|].
    destruct (chunker_Done (world j3)) as [w4 r4]. simpl. eauto.
Qed.

(** C2. Purity, and the three cases on lengths that fit in 32 bits: the
    boundary test gives the same answer on candidates of the same length;
    for a length below 2^32 it is false below [minChunkSize], true above
    [maxChunkSize], and otherwise the Weibull test on the length and the
    hash of the key with [levelSalt[0]]. *)
Theorem crossesBoundary_cases (key : bytes) (buf : slice) :
  (forall buf', len buf' = len buf ->
     crossesBoundary key buf' = crossesBoundary key buf) /\
  ((minChunkSize <= maxChunkSize)%Z ->
   (Z.of_nat (len buf) < 2 ^ 32)%Z ->
   let n := Z.of_nat (len buf) in
   ((n < minChunkSize)%Z -> crossesBoundary key buf = false) /\
   ((maxChunkSize < n)%Z -> crossesBoundary key buf = true) /\
   ((minChunkSize <= n <= maxChunkSize)%Z ->
      crossesBoundary key buf = weibullCheck n n (xxHash32 key levelSalt0))).
Proof.
  split; [intros buf'; apply crossesBoundary_len|].
  intros Hmm Hfit n. unfold crossesBoundary, uint32. fold n.
  rewrite (Z.mod_small n) by (subst n; lia).
  destruct (Z.ltb_spec n minChunkSize), (Z.ltb_spec maxChunkSize n);
    repeat split; intros; try reflexivity; lia.
Qed.


(** C6, as amended. [writeKey] appends a comma exactly when the scanner
    does not report a first element, then the quoted key and a colon
    exactly when the last path element is not an array index; the offset
    moves forward by the number of bytes appended, and nothing else
    changes.  When the scanner stands at the end of its buffer it stands at
    the end of the longer buffer afterwards, every byte appended behind
    it, and under the scanner contract the next [processBuffer] scans
    none of them: it commits no leaf, returns no error and keeps buffer
    and world. *)
Theorem writeKey_appends (keyPath : jsonLocation) (j : JsonChunker) :
  let finalPathElement := fst (getLastPathElement keyPath) in
  let isArray := snd (getLastPathElement keyPath) in
  let isFirstValue := firstElementOrEndOfEmptyValue (jScanner j) in
  let appended :=
    (if isFirstValue then [] else [comma]) ++
    (if isArray then [] else quote :: finalPathElement ++ [quote; colon]) in
  let j' := writeKey keyPath j in
  slice_bytes (jsonBuffer (jScanner j')) =
    slice_bytes (jsonBuffer (jScanner j)) ++ appended /\
  valueOffset (jScanner j') = valueOffset (jScanner j) + length appended /\
  currentPath (jScanner j') = currentPath (jScanner j) /\
  jCur j' = jCur j /\ world j' = world j /\
  (atEndOfChunk (jScanner j) = true ->
   atEndOfChunk (jScanner j') = true /\
   (scanner_progress ->
    forall fuel, exists j2,
      processBuffer (S fuel) j' = Ret (j2, None, []) /\
      jsonBuffer (jScanner j2) = jsonBuffer (jScanner j') /\
      world j2 = world j)).
Proof.
  intros finalPathElement isArray isFirstValue appended j'.
  assert (Hfields :
    slice_bytes (jsonBuffer (jScanner j')) =
      slice_bytes (jsonBuffer (jScanner j)) ++ appended /\
    valueOffset (jScanner j') = valueOffset (jScanner j) + length appended /\
    currentPath (jScanner j') = currentPath (jScanner j) /\
    jCur j' = jCur j /\ world j' = world j).
  { subst finalPathElement isArray isFirstValue appended j'.
    unfold writeKey, appendJsonWithoutSplitting, skipBytes, quotedKey.
    destruct (getLastPathElement keyPath) as [k isArray]. cbn [fst snd].
    destruct (firstElementOrEndOfEmptyValue (jScanner j)), isArray; cbn [negb];
      unfold appendJsonToBuffer;
      destruct (jsonBuffer (jScanner j)) as [b|]; cbn;
      rewrite ?app_nil_r, ?length_app, <- ?app_assoc; cbn;
      repeat split; try reflexivity; try lia. }
  destruct Hfields as (Hbuf & Hoff & Hpath & Hcur & Hworld).
  repeat (split; [assumption|]).
  intros Hend.
  assert (Hend' : atEndOfChunk (jScanner j') = true).
  { unfold atEndOfChunk, len in *. apply Nat.eqb_eq in Hend. apply Nat.eqb_eq.
    rewrite Hbuf, Hoff, length_app. lia. }
  split; [exact Hend'|].
  intros Hscan fuel.
  destruct (processBuffer_at_end_of_chunk Hscan fuel _ Hend') as (j2 & Hpb & Hb2 & Hw2 & _).
  exists j2. split; [exact Hpb|]. split; [exact Hb2|]. now rewrite Hw2.
Qed.

(** C7. In a full write [Done] hands the whole remaining buffer to the node
    store as one blob, adds its address under the end-of-document key and
    returns what the interior chunker's [Done] returns. *)
Theorem Done_full_write (pfuel fuel : nat) (j : JsonChunker) (node : Node)
    (addr : Addr) (w1 w2 : World) :
  jCur j = None ->
  NodeFromBlob (jsonBuffer (jScanner j)) = inl node ->
  ns_Write node (world j) = (w1, inl addr) ->
  chunker_AddPair [endOfValue] addr w1 = (w2, None) ->
  Done pfuel fuel j =
    Ret (chunker_Done w2, [([endOfValue], slice_bytes (jsonBuffer (jScanner j)))]).
Proof.
  intros Hcur Hnode Hwrite Hadd.
  unfold Done. rewrite Hcur.
  unfold finalLeaf, createNewLeafChunk, endOfDocumentKey.
  now rewrite Hnode, Hwrite, Hadd.
Qed.

(** C8. In a splice [Done] enters its loop with the buffer extended by one
    comma exactly when the first byte after the splice point is none of
    the closing brace, the closing bracket and the comma, and with the
    buffer as it was otherwise. *)
Theorem Done_splice_comma (pfuel fuel : nat) (j : JsonChunker) (jc : JsonCursor)
    (jsonBytes : slice) (b0 : byte) :
  jCur j = Some jc ->
  slice_from (jsonBuffer (jsonScanner jc)) (valueOffset (jsonScanner jc)) = Some jsonBytes ->
  slice_head jsonBytes = Some b0 ->
  exists j1,
    Done pfuel fuel j = doneLoop pfuel fuel j1 jsonBytes /\
    (slice_bytes (jsonBuffer (jScanner j1)) =
       slice_bytes (jsonBuffer (jScanner j)) ++ [comma] <->
     b0 <> closeBrace /\ b0 <> closeBracket /\ b0 <> comma) /\
    (slice_bytes (jsonBuffer (jScanner j1)) = slice_bytes (jsonBuffer (jScanner j)) <->
     ~ (b0 <> closeBrace /\ b0 <> closeBracket /\ b0 <> comma)).
Proof.
  intros Hcur Hfrom Hhead.
  unfold Done. rewrite Hcur, Hfrom, Hhead.
  assert (Hneeds : needsComma b0 = true <->
                   b0 <> closeBrace /\ b0 <> closeBracket /\ b0 <> comma).
  { unfold needsComma. rewrite !andb_true_iff, !negb_true_iff.
    split.
    - intros [[H1 H2] H3]. repeat split; intros ->; discriminate.
    - intros (H1 & H2 & H3).
      repeat split; apply not_true_is_false; intros H;
        apply Byte.byte_dec_bl in H; auto. }
  destruct (needsComma b0) eqn:Hn.
  - exists (appendJsonToBuffer (Some [comma]) j). split; [reflexivity|].
    rewrite appendJsonToBuffer_bytes. simpl. split; split; intros H.
    + now apply Hneeds.
    + reflexivity.
    + apply (f_equal (@length byte)) in H. rewrite length_app in H. simpl in H. lia.
    + exfalso. apply H. now apply Hneeds.
  - exists j. split; [reflexivity|]. split; split; intros H.
    + apply (f_equal (@length byte)) in H. rewrite length_app in H. simpl in H. lia.
    + apply Hneeds in H. discriminate.
    + intros H'. apply Hneeds in H'. discriminate.
    + reflexivity.
Qed.

(** C9. For an indexed document [SerializeJsonToAddr] returns the root the
    document already has: whatever [MarshallJson] would return on it and
    whatever the store is, the world is left as it was and no leaf is
    committed. *)
Theorem serialize_indexed_document (fuel : nat) (root : Node) (w : World) :
  SerializeJsonToAddr fuel (IndexedJsonDocument root) w = Ret (w, inl root, []).
Proof. reflexivity. Qed.

(** C10. In a splice [Done] reads the first byte after the splice point
    without a check: the read is in range, and [Done] goes on to its loop,
    when the cursor's offset is below the length of its buffer; otherwise
    [Done] panics, whatever the fuel. *)
Theorem Done_splice_first_byte (j : JsonChunker) (jc : JsonCursor) :
  jCur j = Some jc ->
  let s := jsonScanner jc in
  (valueOffset s < len (jsonBuffer s) ->
   exists jsonBytes b0 j1,
     slice_from (jsonBuffer s) (valueOffset s) = Some jsonBytes /\
     slice_head jsonBytes = Some b0 /\
     forall pfuel fuel, Done pfuel fuel j = doneLoop pfuel fuel j1 jsonBytes) /\
  (len (jsonBuffer s) <= valueOffset s ->
   forall pfuel fuel, Done pfuel fuel j = Panic).
Proof.
  intros Hcur s. unfold Done. rewrite Hcur. fold s. split.
  - intros Hlt.
    destruct (slice_from_in_range (jsonBuffer s) (n := valueOffset s)) as [jsonBytes Hfrom];
      [lia|].
    destruct (slice_from_bytes _ _ Hfrom) as [Hbytes _].
    destruct (skipn (valueOffset s) (slice_bytes (jsonBuffer s))) as [|b0 rest] eqn:Hskip.
    { apply (f_equal (@length byte)) in Hskip. rewrite length_skipn in Hskip.
      unfold len in Hlt. simpl in Hskip. lia. }
    assert (Hhead : slice_head jsonBytes = Some b0).
    { unfold slice_head. now rewrite Hbytes. }
    exists jsonBytes, b0. eexists. split; [exact Hfrom|]. split; [exact Hhead|].
    intros pfuel fuel. rewrite Hfrom, Hhead. reflexivity.
  - intros Hge pfuel fuel.
    destruct (slice_from (jsonBuffer s) (valueOffset s)) as [jsonBytes|] eqn:Hfrom;
      [|reflexivity].
    destruct (slice_from_bytes _ _ Hfrom) as [Hbytes Hle].
    unfold slice_head. rewrite Hbytes, skipn_all2; [reflexivity|].
    unfold len in Hge. lia.
Qed.

(** Every round of the loop is reached by [Done] itself, with the leaves
    of the rounds before it in front. *)
Lemma SpliceRound_Done (pfuel : nat) (j0 j : JsonChunker) (jsonBytes : slice)
    (acc : list Leaf) :
  SpliceRound pfuel j0 j jsonBytes acc ->
  exists n, forall fuel,
    Done pfuel (n + fuel) j0 = withLeaves acc (doneLoop pfuel fuel j jsonBytes).
Proof.
  induction 1 as [jc jsonBytes b0 Hcur Hfrom Hhead
                 |j jsonBytes acc j2 err ls b w3 _ [n IH] Hpb Hbuf Hadv Hvalid].
  - exists 0. intros fuel. simpl. unfold Done.
    rewrite Hcur, Hfrom, Hhead. now rewrite withLeaves_nil.
  - exists (n + 1). intros fuel.
    replace (n + 1 + fuel) with (n + S fuel) by lia.
    rewrite IH. simpl. rewrite Hpb, Hbuf, Hadv, Hvalid. simpl.
    apply withLeaves_app.
Qed.

(** At the head of every round the buffer, once the round's bytes are
    appended, is not nil. *)
Lemma SpliceRound_buffer (pfuel : nat) (j0 j : JsonChunker) (jsonBytes : slice)
    (acc : list Leaf) :
  SpliceRound pfuel j0 j jsonBytes acc ->
  exists b, jsonBuffer (jScanner (appendJsonToBuffer jsonBytes j)) = Some b.
Proof.
  destruct 1 as [jc jsonBytes b0 Hcur Hfrom Hhead
                |j jsonBytes acc j2 err ls b w3 _ Hpb Hbuf Hadv Hvalid].
  - unfold slice_head in Hhead.
    destruct jsonBytes as [bs|]; [|discriminate].
    destruct (needsComma b0); unfold appendJsonToBuffer; simpl;
      destruct (jsonBuffer (jScanner j0)); simpl; eauto.
  - unfold appendJsonToBuffer. simpl. rewrite Hbuf. simpl. eauto.
Qed.

(** C4. In every round of the loop of [Done] in a splice, the buffer is nil
    after [processBuffer] exactly when the round committed leaves that, put
    end to end, are the whole buffer, which ends with the bytes taken from
    the cursor's leaf: the last cut fell on the end of the buffer.  In that
    case [Done] advances the cursor and returns what the interior
    chunker's [Done] returns. *)
Theorem Done_resynchronizes (pfuel : nat) (j0 j j2 : JsonChunker)
    (jsonBytes : slice) (acc ls : list Leaf) (err : option error) :
  SpliceRound pfuel j0 j jsonBytes acc ->
  processBuffer pfuel (appendJsonToBuffer jsonBytes j) = Ret (j2, err, ls) ->
  let buffer := slice_bytes (jsonBuffer (jScanner (appendJsonToBuffer jsonBytes j))) in
  buffer = slice_bytes (jsonBuffer (jScanner j)) ++ slice_bytes jsonBytes /\
  (jsonBuffer (jScanner j2) = None <-> ls <> [] /\ leafBytes ls = buffer) /\
  (jsonBuffer (jScanner j2) = None ->
   exists n, forall fuel,
     Done pfuel (n + S fuel) j0 =
       Ret (chunker_Done (fst (cur_advance (world j2))), acc ++ ls)).
Proof.
  intros Hround Hpb buffer.
  destruct (SpliceRound_buffer Hround) as [b Hb].
  pose proof (processBuffer_inv _ _ Hpb) as (Hcat & _ & _ & Hsame & Hcut).
  assert (Hbuffer : buffer = b) by (unfold buffer; now rewrite Hb).
  fold buffer in Hcat.
  split; [apply appendJsonToBuffer_bytes|]. split.
  - split.
    + intros Hnil. rewrite Hnil in Hcat. cbn [slice_bytes] in Hcat.
      rewrite app_nil_r in Hcat.
      split; [|exact Hcat].
      intros ->. rewrite (Hsame eq_refl), Hb in Hnil. discriminate.
    + intros [Hne Hall].
      destruct (Hcut Hne) as [Hnil|(rest & Hrest & Hnonempty)]; [exact Hnil|].
      rewrite Hrest, Hall in Hcat. cbn [slice_bytes] in Hcat.
      apply (f_equal (@length byte)) in Hcat. rewrite length_app in Hcat.
      destruct rest; [congruence|]. simpl in Hcat. lia.
  - intros Hnil.
    destruct (SpliceRound_Done Hround) as [n Hdone].
    exists n. intros fuel. rewrite Hdone. simpl. rewrite Hpb, Hnil.
    destruct (cur_advance (world j2)) as [w3 e3]. simpl.
    destruct (chunker_Done w3) as [w4 r4]. reflexivity.
Qed.

(** An error of the store on the final leaf is returned by [Done], with no
    root. *)
Lemma Done_returns_write_error (pfuel fuel : nat) (j : JsonChunker) (node : Node)
    (w1 : World) (e : error) :
  jCur j = None ->
  NodeFromBlob (jsonBuffer (jScanner j)) = inl node ->
  ns_Write node (world j) = (w1, inr e) ->
  Done pfuel fuel j = Ret (w1, inr e, []).
Proof.
  intros Hcur Hnode Hwrite.
  unfold Done. rewrite Hcur.
  unfold finalLeaf, createNewLeafChunk.
  now rewrite Hnode, Hwrite.
Qed.

(** Whatever error [processBuffer] returns, [SerializeJsonToAddr] goes on
    to [Done] and returns what [Done] returns. *)
Lemma SerializeJsonToAddr_ignores_processBuffer_error (fuel : nat) (D : J) (b : slice)
    (w w1 : World) (j2 : JsonChunker) (err : option error) (ls : list Leaf) :
  MarshallJson (OtherJson D) = inl b ->
  newChunker false w = (w1, None) ->
  processBuffer fuel
    (appendJsonToBuffer b (mkChunker None (ScanJsonFromBeginning None) w1)) =
    Ret (j2, err, ls) ->
  SerializeJsonToAddr fuel (OtherJson D) w = withLeaves ls (Done fuel fuel j2).
Proof.
  intros HM Hnew Hpb.
  unfold SerializeJsonToAddr, newEmptyJsonChunker.
  now rewrite HM, Hnew, Hpb.
Qed.

End Facts.

(** ** Further properties of the chunker *)

Section MoreFacts.

Context {P : Platform}.

Lemma withLeaves_not_Panic {X : Type} (ls : list Leaf) (r : outcome (X * list Leaf)) :
  r <> Panic -> withLeaves ls r <> Panic.
Proof. destruct r as [[x ls']| |]; simpl; congruence. Qed.

(** Under the scanner contract no slice expression of [processBuffer] is
    out of range. *)
Lemma processBuffer_no_panic (Hscan : scanner_progress) (fuel : nat) :
  forall j : JsonChunker, processBuffer fuel j <> Panic.
Proof.
  induction fuel as [|fuel IH]; intros j; simpl; [discriminate|].
  unfold AdvanceToNextLocation.
  destruct (scanStep _ _ _) as [[p o] st] eqn:Hstep.
  destruct (isEOF st) eqn:Heof; [discriminate|].
  destruct (Hscan _ _ _ _ _ _ Hstep Heof) as [Hlt Hle].
  fold (len (jsonBuffer (jScanner j))) in Hle.
  cbn [jsonBuffer currentPath valueOffset].
  destruct (slice_to_in_range (jsonBuffer (jScanner j)) Hle) as [value ->].
  destruct (crossesBoundary (locationKey p) value); [|apply IH].
  destruct (createNewLeafChunk _ _ _) as [j2 [e|]]; [discriminate|].
  destruct (negb _).
  - destruct (slice_from_in_range (jsonBuffer (jScanner j)) Hle) as [rest ->].
    apply withLeaves_not_Panic, IH.
  - apply withLeaves_not_Panic, IH.
Qed.

Lemma finalLeaf_Ret (j : JsonChunker) : exists r, finalLeaf j = Ret r.
Proof.
  unfold finalLeaf. destruct (createNewLeafChunk _ _ j) as [j1 [e|]]; eauto.
Qed.

Lemma doneLoop_no_panic (Hscan : scanner_progress) (pfuel fuel : nat) :
  forall (j : JsonChunker) (jsonBytes : slice), doneLoop pfuel fuel j jsonBytes <> Panic.
Proof.
  induction fuel as [|fuel IH]; intros j jsonBytes; simpl; [discriminate|].
  pose proof (processBuffer_no_panic Hscan pfuel (appendJsonToBuffer jsonBytes j)) as Hpb.
  destruct (processBuffer pfuel _) as [[[j2 e2] ls]| |]; try congruence.
  destruct (jsonBuffer (jScanner j2)).
  - destruct (cur_advance (world j2)) as [w3 [e|]]; [discriminate|].
    destruct (negb (cur_Valid w3)).
    + destruct (finalLeaf_Ret (setWorld w3 j2)) as [[x ls0] ->]. discriminate.
    + apply withLeaves_not_Panic, IH.
  - destruct (cur_advance (world j2)). discriminate.
Qed.

(** X1. [processBuffer] loses no byte, with or without an error: the
    leaves it committed followed by what it leaves in the buffer are the
    buffer it was given, each leaf being the piece that starts where the
    leaves before it end; and once it has cut, the buffer it leaves is nil
    or not empty. *)
Theorem processBuffer_conserves_bytes (fuel : nat) (j j' : JsonChunker)
    (err : option error) (ls : list Leaf) :
  processBuffer fuel j = Ret (j', err, ls) ->
  let buffer := slice_bytes (jsonBuffer (jScanner j)) in
  leafBytes ls ++ slice_bytes (jsonBuffer (jScanner j')) = buffer /\
  (forall pre l post, ls = pre ++ l :: post ->
     snd l = firstn (length (snd l)) (skipn (length (leafBytes pre)) buffer)) /\
  (ls <> [] ->
   jsonBuffer (jScanner j') = None \/
   exists b, jsonBuffer (jScanner j') = Some b /\ b <> []).
Proof.
  intros Hpb buffer.
  destruct (processBuffer_inv _ _ Hpb) as (Hcat & _ & _ & _ & Hcut).
  fold buffer in Hcat.
  split; [exact Hcat|]. split; [|exact Hcut].
  intros pre l post ->. rewrite <- Hcat.
  rewrite leafBytes_app, leafBytes_cons, <- !app_assoc.
  rewrite skipn_app, skipn_all, Nat.sub_diag. simpl.
  rewrite firstn_app, firstn_all, Nat.sub_diag. simpl. now rewrite app_nil_r.
Qed.

(** X2. Every leaf [processBuffer] commits ends where the scanner stopped:
    run on what the leaves before it left of the buffer, the scanner
    reported a stop at the leaf's length, and the leaf is keyed by the path
    of that stop. *)
Theorem processBuffer_leaves_end_at_stops (fuel : nat) :
  forall (j j' : JsonChunker) (err : option error) (ls pre post : list Leaf) (l : Leaf),
  processBuffer fuel j = Ret (j', err, ls) ->
  ls = pre ++ l :: post ->
  exists p0 o0 p st,
    scanStep (skipn (length (leafBytes pre)) (slice_bytes (jsonBuffer (jScanner j)))) p0 o0 =
      (p, length (snd l), st) /\
    isEOF st = false /\
    fst l = locationKey p.
Proof.
  induction fuel as [|fuel IH]; intros j j' err ls pre post l; simpl; [discriminate|].
  unfold AdvanceToNextLocation.
  destruct (scanStep _ _ _) as [[p o] st] eqn:Hstep.
  destruct (isEOF st) eqn:Heof.
  { intros [= <- <- <-] Hls. destruct pre; discriminate. }
  cbn [jsonBuffer currentPath valueOffset].
  destruct (slice_to (jsonBuffer (jScanner j)) o) as [value|] eqn:Hto; [|discriminate].
  destruct (slice_to_bytes _ _ Hto) as [Hv Hle].
  destruct (crossesBoundary (locationKey p) value).
  2:{ intros H Hls. exact (IH _ _ _ _ _ _ _ H Hls). }
  destruct (createNewLeafChunk _ _ _) as [j2 [e|]] eqn:Hleaf.
  { intros [= <- <- <-] Hls. destruct pre; discriminate. }
  assert (Hlen : length (slice_bytes value) = o).
  { rewrite Hv, length_firstn. unfold len in Hle. lia. }
  assert (Hrest : forall rest j3,
            slice_bytes rest = skipn o (slice_bytes (jsonBuffer (jScanner j))) ->
            withLeaves [(locationKey p, slice_bytes value)]
              (processBuffer fuel (setScanner (ScanJsonFromMiddle rest p) j3)) =
              Ret (j', err, ls) ->
            ls = pre ++ l :: post ->
            exists p0 o0 p1 st1,
              scanStep (skipn (length (leafBytes pre)) (slice_bytes (jsonBuffer (jScanner j))))
                p0 o0 = (p1, length (snd l), st1) /\
              isEOF st1 = false /\ fst l = locationKey p1).
  { intros rest j3 Hbytes H Hls.
    apply withLeaves_Ret in H. destruct H as (ls0 & H & ->).
    destruct pre as [|h pre'].
    - injection Hls as <- _. simpl. rewrite Hlen. eauto 10.
    - injection Hls as <- Hls0.
      destruct (IH _ _ _ _ _ _ _ H Hls0) as (p0 & o0 & p1 & st1 & Hs & He & Hk).
      cbn [setScanner jScanner jsonBuffer ScanJsonFromMiddle] in Hs.
      rewrite Hbytes, skipn_skipn in Hs.
      rewrite leafBytes_cons, length_app. cbn [snd]. rewrite Hlen.
      replace (o + length (leafBytes pre')) with (length (leafBytes pre') + o) by lia.
      eauto 10. }
  unfold atEndOfChunk. cbn [jsonBuffer valueOffset].
  destruct (Nat.eqb o (len (jsonBuffer (jScanner j)))) eqn:Hend; cbn [negb].
  - apply Nat.eqb_eq in Hend. apply (Hrest None).
    simpl. rewrite Hend. unfold len. now rewrite skipn_all.
  - destruct (slice_from (jsonBuffer (jScanner j)) o) as [rest|] eqn:Hfrom; [|discriminate].
    apply (Hrest rest). now destruct (slice_from_bytes _ _ Hfrom).
Qed.

(** X3. The leaves [processBuffer] reports are the calls it made: from the
    world it started in, each leaf in turn was written to the store and
    added to the interior chunker under its key; when no error is
    returned, that is all that happened to the world. *)
Theorem processBuffer_commits (fuel : nat) :
  forall (j j' : JsonChunker) (err : option error) (ls : list Leaf),
  processBuffer fuel j = Ret (j', err, ls) ->
  exists w, Commits (world j) ls w /\ (err = None -> w = world j').
Proof.
  induction fuel as [|fuel IH]; intros j j' err ls; simpl; [discriminate|].
  destruct (AdvanceToNextLocation (jScanner j)) as [s1 st].
  destruct (isEOF st).
  { intros [= <- <- <-]. exists (world j). split; [constructor | reflexivity]. }
  destruct (slice_to (jsonBuffer s1) (valueOffset s1)) as [value|]; [|discriminate].
  destruct (crossesBoundary _ value).
  2:{ intros H. apply IH in H. exact H. }
  destruct (createNewLeafChunk _ _ _) as [j2 [e|]] eqn:Hleaf.
  { intros [= <- <- <-]. exists (world j). split; [constructor | discriminate]. }
  apply createNewLeafChunk_commits in Hleaf. simpl in Hleaf.
  destruct (if negb (atEndOfChunk s1) then _ else _) as [newBuffer|]; [|discriminate].
  intros H. apply withLeaves_Ret in H. destruct H as (ls0 & H & ->).
  apply IH in H. destruct H as (w & Hc & Hw). simpl in Hc.
  exists w. split; [|exact Hw].
  eapply Commits_app; eauto.
Qed.


(** The leaves of the loop of [Done]: rounds of cuts, then at most the
    final leaf. *)
Lemma doneLoop_leaves (pfuel fuel : nat) :
  forall (j : JsonChunker) (jsonBytes : slice) (w' : World) (r : Node + error)
         (ls : list Leaf),
  doneLoop pfuel fuel j jsonBytes = Ret (w', r, ls) ->
  exists cut final,
    ls = cut ++ final /\
    Forall (fun l => crossesBoundary (fst l) (Some (snd l)) = true) cut /\
    (final = [] \/ exists v, final = [(endOfDocumentKey, v)]).
Proof.
  induction fuel as [|fuel IH]; intros j jsonBytes w' r ls; simpl; [discriminate|].
  destruct (processBuffer pfuel _) as [[[j2 e2] ls1]| |] eqn:Hpb; try discriminate.
  destruct (processBuffer_inv _ _ Hpb) as (_ & Hall & _).
  destruct (jsonBuffer (jScanner j2)) as [b2|].
  - destruct (cur_advance (world j2)) as [w3 [e|]].
    { intros [= _ _ <-]. exists ls1, []. rewrite app_nil_r. auto. }
    destruct (negb (cur_Valid w3)).
    + intros H. apply withLeaves_Ret in H. destruct H as (ls0 & H & ->).
      exists ls1, ls0. split; [reflexivity|]. split; [exact Hall|].
      unfold finalLeaf in H.
      destruct (createNewLeafChunk _ _ _) as [j4 [e|]].
      * injection H as _ _ <-. now left.
      * destruct (chunker_Done (world j4)) as [w5 r5].
        injection H as _ _ <-. right. eauto.
    + intros H. apply withLeaves_Ret in H. destruct H as (ls0 & H & ->).
      apply IH in H. destruct H as (cut & final & -> & Hcut & Hfinal).
      exists (ls1 ++ cut), final. rewrite app_assoc.
      split; [reflexivity|]. split; [|exact Hfinal].
      apply Forall_app. auto.
  - destruct (cur_advance (world j2)) as [w3 e3].
    destruct (chunker_Done w3) as [w4 r4].
    intros [= _ _ <-]. exists ls1, []. rewrite app_nil_r. auto.
Qed.


(** X5. In a full write and in a splice alike, every leaf [Done] commits
    before the final one passed the boundary test and is at least
    [minChunkSize] long; the final one, if any, is keyed by the end of the
    document. *)
Theorem Done_leaves_at_least_min (pfuel fuel : nat) (j : JsonChunker) (w' : World)
    (r : Node + error) (ls : list Leaf) :
  Done pfuel fuel j = Ret (w', r, ls) ->
  exists cut final,
    ls = cut ++ final /\
    Forall (fun l => crossesBoundary (fst l) (Some (snd l)) = true /\
                     (minChunkSize <= Z.of_nat (length (snd l)))%Z) cut /\
    (final = [] \/ exists v, final = [(endOfDocumentKey, v)]).
Proof.
  assert (Hmin : forall cut,
            Forall (fun l => crossesBoundary (fst l) (Some (snd l)) = true) cut ->
            Forall (fun l => crossesBoundary (fst l) (Some (snd l)) = true /\
                             (minChunkSize <= Z.of_nat (length (snd l)))%Z) cut).
  { intros cut Hcut. eapply Forall_impl; [|exact Hcut].
    intros l Hl. split; [exact Hl|]. apply crossesBoundary_min in Hl. exact Hl. }
  unfold Done. destruct (jCur j) as [jc|].
  - destruct (slice_from _ _) as [jsonBytes|]; [|discriminate].
    destruct (slice_head jsonBytes) as [b0|]; [|discriminate].
    intros H. apply doneLoop_leaves in H.
    destruct H as (cut & final & Hls & Hcut & Hfinal).
    exists cut, final. auto.
  - unfold finalLeaf.
    destruct (createNewLeafChunk _ _ j) as [j1 [e|]].
    + intros [= _ _ <-]. exists [], []. auto.
    + destruct (chunker_Done (world j1)) as [w2 r2].
      intros [= _ _ <-]. exists [], [(endOfDocumentKey, slice_bytes (jsonBuffer (jScanner j)))].
      split; [reflexivity|]. split; [constructor|]. right. eauto.
Qed.

(** X6. [newJsonChunker], for a cursor whose offset lies within its buffer,
    seeds the chunker with the bytes of the cursor's leaf before the splice
    point and with the cursor's path, and leaves its scanner at the end of
    that buffer, at the cursor's offset. *)
Theorem newJsonChunker_seeds_prefix (jc : JsonCursor) (w w1 : World) :
  newChunker true w = (w1, None) ->
  let s := jsonScanner jc in
  valueOffset s <= len (jsonBuffer s) ->
  exists j,
    newJsonChunker jc w = Ret (w1, Some j, None) /\
    jCur j = Some jc /\ world j = w1 /\
    slice_bytes (jsonBuffer (jScanner j)) =
      firstn (valueOffset s) (slice_bytes (jsonBuffer s)) /\
    currentPath (jScanner j) = currentPath s /\
    valueOffset (jScanner j) = valueOffset s /\
    atEndOfChunk (jScanner j) = true.
Proof.
  intros Hnew s Hle. unfold newJsonChunker. rewrite Hnew. fold s.
  destruct (slice_to_in_range (jsonBuffer s) Hle) as [prefix Hto].
  rewrite Hto. destruct (slice_to_bytes _ _ Hto) as [Hbytes _].
  assert (Hlen : len (bytes_Clone prefix) = valueOffset s).
  { unfold bytes_Clone, len. rewrite Hbytes, length_firstn.
    unfold len in Hle. lia. }
  eexists. split; [reflexivity|]. cbn.
  repeat split; auto.
  unfold atEndOfChunk. cbn. rewrite Hlen. apply Nat.eqb_refl.
Qed.

(** X7. A splice that writes nothing rebuilds the cursor's leaf: [Done] on
    the chunker [newJsonChunker] returns enters its loop with, once the
    first round's bytes are appended, the bytes of the cursor's leaf and
    one comma put at the splice point when the byte there is none of the
    closing brace, the closing bracket and the comma. *)
Theorem splice_without_write_rebuilds_leaf (pfuel fuel : nat) (jc : JsonCursor)
    (w w1 : World) (j : JsonChunker) :
  newJsonChunker jc w = Ret (w1, Some j, None) ->
  let s := jsonScanner jc in
  let leaf := slice_bytes (jsonBuffer s) in
  valueOffset s < len (jsonBuffer s) ->
  exists b0 j1 jsonBytes,
    nth_error leaf (valueOffset s) = Some b0 /\
    Done pfuel fuel j = doneLoop pfuel fuel j1 jsonBytes /\
    slice_bytes (jsonBuffer (jScanner (appendJsonToBuffer jsonBytes j1))) =
      firstn (valueOffset s) leaf ++
      (if needsComma b0 then [comma] else []) ++ skipn (valueOffset s) leaf /\
    (needsComma b0 = false ->
     slice_bytes (jsonBuffer (jScanner (appendJsonToBuffer jsonBytes j1))) = leaf).
Proof.
  intros Hnew s leaf Hlt.
  unfold newJsonChunker in Hnew.
  destruct (newChunker true w) as [w2 [e|]]; [discriminate|].
  fold s in Hnew.
  destruct (slice_to (jsonBuffer s) (valueOffset s)) as [prefix|] eqn:Hto; [|discriminate].
  destruct (slice_to_bytes _ _ Hto) as [Hprefix _].
  injection Hnew as _ <-.
  destruct (slice_from_in_range (jsonBuffer s) (n := valueOffset s)) as [jsonBytes Hfrom];
    [lia|].
  destruct (slice_from_bytes _ _ Hfrom) as [Hbytes _]. fold leaf in Hbytes, Hprefix.
  destruct (skipn (valueOffset s) leaf) as [|b0 rest] eqn:Hskip.
  { apply (f_equal (@length byte)) in Hskip. rewrite length_skipn in Hskip.
    unfold leaf, len in *. simpl in Hskip. lia. }
  assert (Hnth : nth_error leaf (valueOffset s) = Some b0).
  { rewrite <- (firstn_skipn (valueOffset s) leaf) at 1.
    rewrite nth_error_app2; rewrite length_firstn;
      [|unfold leaf, len in *; lia].
    replace (valueOffset s - Nat.min (valueOffset s) (length leaf)) with 0
      by (unfold leaf, len in *; lia).
    now rewrite Hskip. }
  assert (Hhead : slice_head jsonBytes = Some b0).
  { unfold slice_head. now rewrite Hbytes. }
  exists b0. eexists. exists jsonBytes.
  split; [exact Hnth|]. split.
  { unfold Done. cbn [jCur]. fold s. rewrite Hfrom, Hhead. reflexivity. }
  assert (Hbuf : forall c : bool,
            slice_bytes (jsonBuffer (jScanner (appendJsonToBuffer jsonBytes
              (if c then appendJsonToBuffer (Some [comma])
                           (mkChunker (Some jc)
                              (mkScanner (bytes_Clone prefix) (currentPath s)
                                 (len (bytes_Clone prefix))) w2)
               else mkChunker (Some jc)
                      (mkScanner (bytes_Clone prefix) (currentPath s)
                         (len (bytes_Clone prefix))) w2)))) =
            firstn (valueOffset s) leaf ++ (if c then [comma] else []) ++ b0 :: rest).
  { intros c. rewrite appendJsonToBuffer_bytes, Hbytes.
    destruct c.
    - rewrite appendJsonToBuffer_bytes. cbn [jScanner jsonBuffer].
      unfold bytes_Clone. rewrite Hprefix. now rewrite <- !app_assoc.
    - cbn [jScanner jsonBuffer]. unfold bytes_Clone. now rewrite Hprefix. }
  pose proof (Hbuf (needsComma b0)) as Hb.
  split; [exact Hb|].
  intros Hno. etransitivity; [exact Hb|].
  rewrite Hno. simpl. rewrite <- Hskip. apply firstn_skipn.
Qed.

(** X8. The bytes [writeKey] injects are never scanned for a boundary: on a
    chunker whose scanner is at the end of its buffer, [writeKey] leaves the
    scanner at the end of the longer buffer, and under the scanner contract
    the next [processBuffer] commits no leaf, returns no error and keeps
    the buffer and the world. *)
Theorem writeKey_not_rescanned (Hscan : scanner_progress) (fuel : nat)
    (keyPath : jsonLocation) (j : JsonChunker) :
  atEndOfChunk (jScanner j) = true ->
  atEndOfChunk (jScanner (writeKey keyPath j)) = true /\
  exists j',
    processBuffer (S fuel) (writeKey keyPath j) = Ret (j', None, []) /\
    jsonBuffer (jScanner j') = jsonBuffer (jScanner (writeKey keyPath j)) /\
    world j' = world j.
Proof.
  intros Hend.
  destruct (writeKey_keeps_distance keyPath j) as [Hworld Hdist].
  assert (Hend' : atEndOfChunk (jScanner (writeKey keyPath j)) = true).
  { unfold atEndOfChunk in *. apply Nat.eqb_eq in Hend. apply Nat.eqb_eq. lia. }
  split; [exact Hend'|].
  destruct (processBuffer_at_end_of_chunk Hscan fuel _ Hend') as (j' & Hpb & Hbuf & Hw & _).
  exists j'. split; [exact Hpb|]. split; [exact Hbuf|].
  now rewrite Hw.
Qed.

(** X9. The boundary test sees the length through its low 32 bits only, and
    never accepts a candidate shorter than [minChunkSize], whatever its
    length: truncation can make it miss a cut, not cut short. *)
Theorem crossesBoundary_truncation (key : bytes) (buf : slice) :
  (crossesBoundary key buf = true -> (minChunkSize <= Z.of_nat (len buf))%Z) /\
  (forall buf',
     (Z.of_nat (len buf') mod 2 ^ 32 = Z.of_nat (len buf) mod 2 ^ 32)%Z ->
     crossesBoundary key buf' = crossesBoundary key buf).
Proof.
  split; [apply crossesBoundary_min|].
  intros buf' Hmod. unfold crossesBoundary, uint32. now rewrite Hmod.
Qed.

(** X10. A full write returns a root only after the whole run went through:
    the document was marshalled, the interior chunker created, the buffer
    [processBuffer] left was written to the store as one blob and added
    under the end-of-document key, and the root is the one the interior
    chunker's [Done] returned on the world so reached. *)
Theorem serialize_root_needs_final_leaf (fuel : nat) (D : J) (w w' : World)
    (root : Node) (ls : list Leaf) :
  SerializeJsonToAddr fuel (OtherJson D) w = Ret (w', inl root, ls) ->
  exists b w1 j2 err cut node addr wa wb,
    MarshallJson (OtherJson D) = inl b /\
    newChunker false w = (w1, None) /\
    processBuffer fuel
      (appendJsonToBuffer b (mkChunker None (ScanJsonFromBeginning None) w1)) =
      Ret (j2, err, cut) /\
    NodeFromBlob (jsonBuffer (jScanner j2)) = inl node /\
    ns_Write node (world j2) = (wa, inl addr) /\
    chunker_AddPair [endOfValue] addr wa = (wb, None) /\
    chunker_Done wb = (w', inl root) /\
    ls = cut ++ [([endOfValue], slice_bytes (jsonBuffer (jScanner j2)))].
Proof.
  unfold SerializeJsonToAddr, newEmptyJsonChunker.
  destruct (MarshallJson (OtherJson D)) as [b|e]; [|discriminate].
  destruct (newChunker false w) as [w1 [e|]]; [discriminate|].
  destruct (processBuffer fuel _) as [[[j2 err] cut]| |] eqn:Hpb; try discriminate.
  intros H. apply withLeaves_Ret in H. destruct H as (ls2 & HD & ->).
  pose proof (processBuffer_inv _ _ Hpb) as (_ & _ & Hcur & _).
  destruct (appendJsonToBuffer_fields b
              (mkChunker None (ScanJsonFromBeginning None) w1)) as (Hc0 & _).
  rewrite Hc0 in Hcur. simpl in Hcur.
  unfold Done in HD. rewrite Hcur in HD.
  unfold finalLeaf, createNewLeafChunk, endOfDocumentKey in HD.
  destruct (NodeFromBlob (jsonBuffer (jScanner j2))) as [node|e] eqn:Hnode;
    [|discriminate].
  destruct (ns_Write node (world j2)) as [wa [addr|e]] eqn:Hwrite; [|discriminate].
  destruct (chunker_AddPair [endOfValue] addr wa) as [wb [e|]] eqn:Hadd; [discriminate|].
  cbn [setWorld world] in HD.
  destruct (chunker_Done wb) as [w4 r4] eqn:Hdone.
  injection HD as -> -> <-.
  exists b, w1, j2, err, cut, node, addr, wa, wb. repeat split; auto.
Qed.

(** X11. Under the scanner contract the read of the first byte after the
    splice point is the only place where the chunker can panic: a full
    write never panics, and neither does [Done], in a splice whose cursor
    has a byte left. *)
Theorem chunker_panics_only_at_first_byte (Hscan : scanner_progress) :
  (forall fuel j w, SerializeJsonToAddr fuel j w <> Panic) /\
  (forall pfuel fuel j,
     (forall jc, jCur j = Some jc ->
        valueOffset (jsonScanner jc) < len (jsonBuffer (jsonScanner jc))) ->
     Done pfuel fuel j <> Panic).
Proof.
  assert (HDone : forall pfuel fuel j,
            (forall jc, jCur j = Some jc ->
               valueOffset (jsonScanner jc) < len (jsonBuffer (jsonScanner jc))) ->
            Done pfuel fuel j <> Panic).
  { intros pfuel fuel j Hbyte. unfold Done.
    destruct (jCur j) as [jc|].
    - specialize (Hbyte jc eq_refl).
      destruct (slice_from_in_range (jsonBuffer (jsonScanner jc))
                  (n := valueOffset (jsonScanner jc))) as [jsonBytes Hfrom]; [lia|].
      rewrite Hfrom. destruct (slice_from_bytes _ _ Hfrom) as [Hbytes _].
      unfold slice_head. rewrite Hbytes.
      destruct (skipn _ _) as [|b0 rest] eqn:Hskip.
      + apply (f_equal (@length byte)) in Hskip. rewrite length_skipn in Hskip.
        unfold len in Hbyte. simpl in Hskip. lia.
      + apply doneLoop_no_panic, Hscan.
    - destruct (finalLeaf_Ret j) as [x ->]. discriminate. }
  split; [|exact HDone].
  intros fuel j w. unfold SerializeJsonToAddr, newEmptyJsonChunker.
  destruct j as [root|v]; [discriminate|].
  destruct (MarshallJson (OtherJson v)) as [b|e]; [|discriminate].
  destruct (newChunker false w) as [w1 [e|]]; [discriminate|].
  pose proof (processBuffer_no_panic Hscan fuel
                (appendJsonToBuffer b (mkChunker None (ScanJsonFromBeginning None) w1)))
    as Hpb.
  destruct (processBuffer fuel _) as [[[j2 e2] ls1]| |] eqn:Hrun; try congruence.
  apply withLeaves_not_Panic, HDone.
  pose proof (processBuffer_inv _ _ Hrun) as (_ & _ & Hcur & _).
  destruct (appendJsonToBuffer_fields b
              (mkChunker None (ScanJsonFromBeginning None) w1)) as (Hc0 & _).
  rewrite Hc0 in Hcur. simpl in Hcur. rewrite Hcur. discriminate.
Qed.

(** X12. A document shorter than [minChunkSize] is never cut: a full write
    that returns a root committed one leaf, keyed by the end of the
    document, which holds the whole marshalled document. *)
Theorem serialize_small_document_one_leaf (fuel : nat) (D : J) (b : slice)
    (w w' : World) (root : Node) (ls : list Leaf) :
  MarshallJson (OtherJson D) = inl b ->
  (Z.of_nat (len b) < minChunkSize)%Z ->
  SerializeJsonToAddr fuel (OtherJson D) w = Ret (w', inl root, ls) ->
  ls = [([endOfValue], slice_bytes b)].
Proof.
  intros HM Hsmall. unfold SerializeJsonToAddr, newEmptyJsonChunker. rewrite HM.
  destruct (newChunker false w) as [w1 [e|]]; [discriminate|].
  destruct (processBuffer fuel _) as [[[j2 err] cut]| |] eqn:Hpb; try discriminate.
  intros H. apply withLeaves_Ret in H. destruct H as (ls2 & HD & ->).
  pose proof (processBuffer_inv _ _ Hpb) as (Hcat & Hall & Hcur & Hsame & _).
  rewrite appendJsonToBuffer_bytes in Hcat. simpl in Hcat.
  destruct (appendJsonToBuffer_fields b
              (mkChunker None (ScanJsonFromBeginning None) w1)) as (Hc0 & _).
  rewrite Hc0 in Hcur. simpl in Hcur.
  assert (Hcut : cut = []).
  { destruct cut as [|l cut]; [reflexivity|]. exfalso.
    inversion Hall as [|? ? Hl _]; subst.
    apply crossesBoundary_min in Hl. unfold len in Hl, Hsmall. simpl in Hl.
    apply (f_equal (@length byte)) in Hcat.
    rewrite leafBytes_cons, !length_app in Hcat. lia. }
  subst cut. simpl in Hcat.
  unfold Done in HD. rewrite Hcur in HD. unfold finalLeaf, endOfDocumentKey in HD.
  destruct (createNewLeafChunk _ _ j2) as [j3 [e|]]; [discriminate|].
  destruct (chunker_Done (world j3)) as [w4 r4].
  injection HD as _ _ <-. simpl. now rewrite Hcat.
Qed.

End MoreFacts.

(** ** The reference platform meets the scanner contract *)

Module ReferenceFacts.

Import Reference.

Lemma stringEnd_bounds (l : bytes) :
  forall escaped n, stringEnd l escaped = Some n -> 1 <= n <= length l.
Proof.
  induction l as [|c r IH]; intros escaped n; simpl; [discriminate|].
  assert (Hrec : forall e, option_map S (stringEnd r e) = Some n ->
                           1 <= n <= S (length r)).
  { intros e. destruct (stringEnd r e) as [m|] eqn:Hm; [|discriminate].
    intros [= <-]. apply IH in Hm. lia. }
  destruct escaped; [apply Hrec|].
  destruct (Byte.eqb c x5c); [apply Hrec|].
  destruct (Byte.eqb c x22); [|apply Hrec].
  intros [= <-]. lia.
Qed.

Lemma scalarEnd_bound (l : bytes) : scalarEnd l <= length l.
Proof.
  induction l as [|c r IH]; simpl; [lia|].
  destruct (isStructural c); lia.
Qed.

Lemma scanValue_bounds (rest : bytes) (p : list Step) (pre : nat) l n :
  scanValue rest p pre = Stop l n -> pre + 1 <= n <= pre + length rest.
Proof.
  unfold scanValue. destruct rest as [|c r]; [discriminate|]. simpl.
  destruct (Byte.eqb c x7b); [intros [= <- <-]; lia|].
  destruct (Byte.eqb c x5b); [intros [= <- <-]; lia|].
  destruct (Byte.eqb c x22).
  - destruct (stringEnd r false) as [m|] eqn:Hm; [|discriminate].
    intros [= <- <-]. apply stringEnd_bounds in Hm. lia.
  - destruct (isStructural c); [discriminate|].
    intros [= <- <-]. pose proof (scalarEnd_bound r). lia.
Qed.

Lemma scanKeyValue_bounds (rest : bytes) (p : list Step) (pre : nat) l n :
  scanKeyValue rest p pre = Stop l n -> pre + 1 <= n <= pre + length rest.
Proof.
  unfold scanKeyValue. destruct rest as [|c r]; [discriminate|]. simpl.
  destruct (Byte.eqb c x22); [|discriminate].
  destruct (stringEnd r false) as [m|] eqn:Hm; [|discriminate].
  apply stringEnd_bounds in Hm.
  destruct (skipn m r) as [|c' r'] eqn:Hskip; [discriminate|].
  destruct (Byte.eqb c' x3a); [|discriminate].
  intros H. apply scanValue_bounds in H.
  apply (f_equal (@length byte)) in Hskip. rewrite length_skipn in Hskip.
  simpl in Hskip. lia.
Qed.

Lemma scanRest_bounds (rest : bytes) (l l' : RefLocation) (n : nat) :
  scanRest rest l = Stop l' n -> 1 <= n <= length rest.
Proof.
  unfold scanRest. destruct rest as [|c r]; [discriminate|].
  destruct (state l).
  - intros H. apply scanValue_bounds in H. lia.
  - destruct (Byte.eqb c x7d); [intros [= <- <-]; simpl; lia|].
    intros H. apply scanKeyValue_bounds in H. lia.
  - destruct (Byte.eqb c x5d); [intros [= <- <-]; simpl; lia|].
    intros H. apply scanValue_bounds in H. lia.
  - destruct (Byte.eqb c x2c).
    + destruct (path l) as [|[k|i] p]; [discriminate| |];
        intros H; [apply scanKeyValue_bounds in H|apply scanValue_bounds in H];
        simpl; lia.
    + destruct (Byte.eqb c x7d || Byte.eqb c x5d); [|discriminate].
      destruct (path l); [discriminate|]. intros [= <- <-]. simpl. lia.
Qed.

Lemma refScanStep_progress : scanner_progress (P := refPlatform).
Proof.
  intros buf p o p' o' st. simpl. unfold refScanStep.
  destruct (scanRest (skipn o buf) p) as [l n| |] eqn:Hrest.
  - intros [= <- <- <-] _. apply scanRest_bounds in Hrest.
    rewrite length_skipn in Hrest. lia.
  - intros [= <- <- <-]. discriminate.
  - destruct (Nat.ltb_spec o (length buf)).
    + intros [= <- <- <-] _. lia.
    + intros [= <- <- <-]. discriminate.
Qed.

End ReferenceFacts.

(** ** Runs on the reference platform *)

Import Reference.

(** C1 on [mediumDoc]: its full write commits five leaves, of 1002, 654,
    654, 691 and 0 bytes, which put end to end are its marshalled bytes,
    the first four cut at scanner stops and committed from the empty
    world; and the write returns under the reference scanner. *)
Lemma serialize_leaves_reassemble_witness :
  MarshallJson (Platform := refPlatform) (OtherJson mediumDoc) = inl (Some (marshal mediumDoc)) /\
  (exists w' root ls,
     SerializeJsonToAddr (N.to_nat 4000) (OtherJson mediumDoc) emptyWorld =
       Ret (w', inl root, ls) /\
     map (fun l => length (snd l)) ls = [1002; 654; 654; 691; 0] /\
     leafBytes ls = marshal mediumDoc /\
     exists cut rest wc wb,
       ls = cut ++ [([xff], rest)] /\
       CutsFrom (P := refPlatform) (marshal mediumDoc) refRoot 0 cut /\
       Commits (P := refPlatform) emptyWorld cut wc /\
       refChunkerDone wb = (w', inl root)) /\
  (exists w' r ls,
     SerializeJsonToAddr (S (length (marshal mediumDoc))) (OtherJson mediumDoc) emptyWorld =
       Ret (w', r, ls)).
Proof.
  pose proof (@serialize_leaves_reassemble refPlatform mediumDoc
                (Some (marshal mediumDoc)) eq_refl) as [Hcat Hret].
  split; [reflexivity|]. split.
  - eexists _, _, _. split; [vm_compute; reflexivity|].
    split; [vm_compute; reflexivity|].
    match goal with
    | |- leafBytes ?ls = _ /\ (exists cut rest wc wb, _ /\ _ /\ _ /\ _ = (?w', inl ?root)) =>
      assert (Hrun : SerializeJsonToAddr (N.to_nat 4000) (OtherJson mediumDoc) emptyWorld =
                     Ret (w', inl root, ls)) by (vm_compute; reflexivity);
      destruct (Hcat _ _ _ _ _ Hrun)
        as (Hbytes & _ & w1 & cut & rest & wc & w2 & wb & Hnew & Hls & Hcuts & Hcom & _ & _ & Hdone)
    end.
    split; [exact Hbytes|].
    exists cut, rest, wc, wb. injection Hnew as <-.
    repeat split; assumption.
  - exact (Hret ReferenceFacts.refScanStep_progress emptyWorld).
Defined.

(** C2 on the two bytes of an empty object: below [minChunkSize], no cut. *)
Lemma crossesBoundary_cases_witness :
  (minChunkSize (Platform := refPlatform) <= maxChunkSize)%Z /\
  (Z.of_nat (len (Some [x7b; x7d])) < 2 ^ 32)%Z /\
  crossesBoundary [xff] (Some [x7b; x7d]) = false.
Proof.
  assert (H1 : (minChunkSize (Platform := refPlatform) <= maxChunkSize)%Z)
    by (simpl; lia).
  assert (H2 : (Z.of_nat (len (Some [x7b; x7d])) < 2 ^ 32)%Z) by (simpl; lia).
  split; [exact H1|]. split; [exact H2|].
  apply (proj2 (@crossesBoundary_cases refPlatform [xff] (Some [x7b; x7d])) H1 H2).
  simpl. lia.
Defined.

(** C2, counterexample. The length is truncated to 32 bits before it is
    compared: a candidate of 2^32 bytes is above [maxChunkSize] and is not
    cut. *)
Lemma crossesBoundary_truncates_length :
  (maxChunkSize (Platform := refPlatform) < Z.of_nat (len hugeCandidate))%Z /\
  crossesBoundary (P := refPlatform) [xff] hugeCandidate = false.
Proof.
  assert (Hlen : Z.of_nat (len hugeCandidate) = 4294967296%Z).
  { unfold hugeCandidate, len, slice_bytes. rewrite repeat_length.
    apply Z2Nat.id. discriminate. }
  split.
  - rewrite Hlen. reflexivity.
  - unfold crossesBoundary. rewrite Hlen. reflexivity.
Qed.

(** The full write of [longDoc] to an empty store. *)
Lemma longDoc_run :
  SerializeJsonToAddr 100 (OtherJson longDoc) emptyWorld =
    Ret (longDocWorld, inl (AddressMap [([xff], 0); ([xff], 1)]),
         [([xff], longString); ([xff], [])]).
Proof. vm_compute; reflexivity. Qed.



(** C5, the failing run. The store rejects the one write that
    [processBuffer] makes; [processBuffer] returns the error, and
    [SerializeJsonToAddr] still returns a root. *)
Theorem write_error_of_processBuffer_dropped :
  newEmptyJsonChunker faultyWorld = (faultyWorld, Some faultyChunker, None) /\
  processBuffer 100 (appendJsonToBuffer (Some (marshal longDoc)) faultyChunker) =
    Ret (faultyChunkerAfter, Some StoreRejected, []) /\
  SerializeJsonToAddr 100 (OtherJson longDoc) faultyWorld =
    Ret (faultyWorldAfter, inl (AddressMap [([xff], 0)]), [([xff], longString)]).
Proof.
  split; [reflexivity|]. split; vm_compute; reflexivity.
Qed.

(** C4 on [spliceChunker]: the first round cuts at the end of the buffer
    and [Done] returns through the advanced cursor. *)
Lemma Done_resynchronizes_witness :
  let j := appendJsonToBuffer (Some [comma]) spliceChunker in
  SpliceRound 100 spliceChunker j (Some longString) [] /\
  processBuffer 100 (appendJsonToBuffer (Some longString) j) =
    Ret (spliceChunkerAfter, None, [spliceLeaf]) /\
  (jsonBuffer (jScanner spliceChunkerAfter) = None <->
   [spliceLeaf] <> [] /\
   leafBytes [spliceLeaf] =
     slice_bytes (jsonBuffer (jScanner (appendJsonToBuffer (Some longString) j)))) /\
  exists n, forall fuel,
    Done 100 (n + S fuel) spliceChunker =
      Ret (chunker_Done (fst (cur_advance (world spliceChunkerAfter))), [spliceLeaf]).
Proof.
  intros j.
  assert (Hround : SpliceRound 100 spliceChunker j (Some longString) []).
  { exact (@FirstRound refPlatform 100 spliceChunker spliceCursor (Some longString) x22
             eq_refl eq_refl eq_refl). }
  assert (Hrun : processBuffer 100 (appendJsonToBuffer (Some longString) j) =
                 Ret (spliceChunkerAfter, None, [spliceLeaf]))
    by (vm_compute; reflexivity).
  destruct (@Done_resynchronizes refPlatform 100 spliceChunker j spliceChunkerAfter
              (Some longString) [] [spliceLeaf] None Hround Hrun) as (_ & Hiff & Hdone).
  split; [exact Hround|]. split; [exact Hrun|]. split; [exact Hiff|].
  exact (Hdone eq_refl).
Defined.

(** C6, counterexample. On a chunker that still holds two unscanned bytes,
    [writeKey] appends a comma at index 4 and moves the offset from 2 to 3
    only: the appended byte is not skipped, the scanner does not stand at
    the end of the buffer, and its next call runs over the comma. *)
Lemma writeKey_pending_bytes_scanned :
  let j' := writeKey (mkLoc [Index 2] startOfValue) pendingChunker in
  slice_bytes (jsonBuffer (jScanner j')) = [x5b; x31; x2c; x32; x2c] /\
  valueOffset (jScanner j') = 3 /\
  nth_error (slice_bytes (jsonBuffer (jScanner j'))) 4 = Some comma /\
  atEndOfChunk (jScanner j') = false /\
  valueOffset (fst (AdvanceToNextLocation (jScanner j'))) = 5.
Proof. repeat split; reflexivity. Qed.

(** C6 on [keyChunker], which stands at the end of its buffer: the key [a]
    is appended after the brace and the scanner stands behind it. *)
Lemma writeKey_appends_witness :
  let j' := writeKey (mkLoc [Key [x61]] startOfValue) keyChunker in
  slice_bytes (jsonBuffer (jScanner j')) = [x7b; x22; x61; x22; x3a] /\
  valueOffset (jScanner j') = 5 /\
  atEndOfChunk (jScanner j') = true /\
  exists j2,
    processBuffer 5 j' = Ret (j2, None, []) /\
    jsonBuffer (jScanner j2) = jsonBuffer (jScanner j').
Proof.
  intros j'.
  destruct (@writeKey_appends refPlatform (mkLoc [Key [x61]] startOfValue) keyChunker)
    as (Hbuf & Hoff & _ & _ & _ & Hend).
  destruct (Hend eq_refl) as [Hend' Hscan].
  destruct (Hscan ReferenceFacts.refScanStep_progress 4) as (j2 & Hpb & Hb2 & _).
  split; [exact Hbuf|]. split; [exact Hoff|]. split; [exact Hend'|].
  exists j2. split; assumption.
Defined.

(** C7 on [fullChunker]. *)
Lemma Done_full_write_witness :
  exists w2,
    Done 0 0 fullChunker = Ret (chunker_Done w2, [([xff], [x7b; x7d])]).
Proof.
  eexists.
  eapply (@Done_full_write refPlatform 0 0 fullChunker); reflexivity.
Defined.

(** C8 on [spliceChunker]: the byte after the splice point is a quote, so
    a comma is appended. *)
Lemma Done_splice_comma_witness :
  exists j1,
    Done 100 100 spliceChunker = doneLoop 100 100 j1 (Some longString) /\
    slice_bytes (jsonBuffer (jScanner j1)) = [x5b; x30; x2c].
Proof.
  destruct (@Done_splice_comma refPlatform 100 100 spliceChunker spliceCursor
              (Some longString) x22 eq_refl eq_refl eq_refl) as (j1 & HD & Hc & _).
  exists j1. split; [exact HD|].
  apply Hc. repeat split; discriminate.
Defined.

(** C10 on [endChunker], whose cursor has no byte left, and on
    [spliceChunker], whose cursor has. *)
Lemma Done_splice_first_byte_witness :
  Done 100 100 endChunker = Panic /\
  exists jsonBytes b0 j1,
    slice_head jsonBytes = Some b0 /\
    Done 100 100 spliceChunker = doneLoop 100 100 j1 jsonBytes.
Proof.
  split.
  - apply (proj2 (@Done_splice_first_byte refPlatform endChunker endCursor eq_refl)).
    exact (le_n 1).
  - destruct (proj1 (@Done_splice_first_byte refPlatform spliceChunker spliceCursor eq_refl))
      as (jsonBytes & b0 & j1 & _ & Hhead & HD).
    + apply Nat.ltb_lt. vm_compute. reflexivity.
    + exists jsonBytes, b0, j1. split; [exact Hhead | apply HD].
Defined.

(** ** Further runs on the reference platform *)

(** [processBuffer] on the array [["aaa...a",1]]. *)
Lemma arrayChunker_run :
  processBuffer 100 arrayChunker = Ret (arrayChunkerAfter, None, [arrayLeaf]).
Proof. vm_compute; reflexivity. Qed.

(** [Done] on [spliceChunker]. *)
Lemma spliceChunker_run :
  Done 100 100 spliceChunker = Ret (spliceWorldDone, inl spliceRoot, [spliceLeaf]).
Proof. vm_compute; reflexivity. Qed.

Lemma hugeCandidate_len : Z.of_nat (len hugeCandidate) = 4294967296%Z.
Proof.
  unfold hugeCandidate, len, slice_bytes. rewrite repeat_length.
  apply Z2Nat.id. discriminate.
Qed.

(** X1 on [arrayChunker]: the leaf and the three bytes left are the array. *)
Lemma processBuffer_conserves_bytes_witness :
  leafBytes [arrayLeaf] ++ [x2c; x31; x5d] = arrayBytes /\
  (jsonBuffer (jScanner arrayChunkerAfter) = None \/
   exists b, jsonBuffer (jScanner arrayChunkerAfter) = Some b /\ b <> []).
Proof.
  destruct (@processBuffer_conserves_bytes refPlatform 100 arrayChunker arrayChunkerAfter
              None [arrayLeaf] arrayChunker_run) as (Hcat & _ & Hcut).
  split; [exact Hcat|]. apply Hcut. discriminate.
Defined.

(** X2 on [arrayChunker]: the scanner stopped at the end of the leaf. *)
Lemma processBuffer_leaves_end_at_stops_witness :
  exists p0 o0 p st,
    refScanStep arrayBytes p0 o0 = (p, length (snd arrayLeaf), st) /\
    isEOF st = false /\
    fst arrayLeaf = refLocationKey p.
Proof.
  exact (@processBuffer_leaves_end_at_stops refPlatform 100 arrayChunker arrayChunkerAfter
           None [arrayLeaf] [] [] arrayLeaf arrayChunker_run eq_refl).
Defined.

(** X3 on [arrayChunker]: the leaf was written and added. *)
Lemma processBuffer_commits_witness :
  Commits (P := refPlatform) emptyWorld [arrayLeaf] (world arrayChunkerAfter).
Proof.
  destruct (@processBuffer_commits refPlatform 100 arrayChunker arrayChunkerAfter
              None [arrayLeaf] arrayChunker_run) as (w & Hc & Hw).
  rewrite <- (Hw eq_refl). exact Hc.
Defined.


(** X5 on [spliceChunker]. *)
Lemma Done_leaves_at_least_min_witness :
  exists cut final,
    [spliceLeaf] = cut ++ final /\
    Forall (fun l => (minChunkSize (Platform := refPlatform) <= Z.of_nat (length (snd l)))%Z)
      cut /\
    (final = [] \/ exists v, final = [([xff], v)]).
Proof.
  destruct (@Done_leaves_at_least_min refPlatform 100 100 spliceChunker _ _ _
              spliceChunker_run) as (cut & final & Hls & Hcut & Hfinal).
  exists cut, final. repeat split; auto.
  eapply Forall_impl; [|exact Hcut]. intros l [_ H]. exact H.
Defined.

(** X6 on [spliceCursor]: the chunker holds the opening bracket. *)
Lemma newJsonChunker_seeds_prefix_witness :
  exists j,
    newJsonChunker spliceCursor spliceWorld = Ret (spliceWorld, Some j, None) /\
    slice_bytes (jsonBuffer (jScanner j)) = [x5b] /\
    valueOffset (jScanner j) = 1 /\
    atEndOfChunk (jScanner j) = true.
Proof.
  destruct (@newJsonChunker_seeds_prefix refPlatform spliceCursor spliceWorld
              spliceWorld eq_refl)
    as (j & Hnew & _ & _ & Hbuf & _ & Hoff & Hend).
  - apply Nat.leb_le. vm_compute. reflexivity.
  - exists j. repeat split; assumption.
Defined.

(** X7 on [commaCursor]: the byte at the splice point is a comma, and the
    buffer is the cursor's leaf again. *)
Lemma splice_without_write_rebuilds_leaf_witness :
  exists j j1 jsonBytes,
    newJsonChunker commaCursor emptyWorld = Ret (emptyWorld, Some j, None) /\
    Done 100 100 j = doneLoop 100 100 j1 jsonBytes /\
    slice_bytes (jsonBuffer (jScanner (appendJsonToBuffer jsonBytes j1))) =
      [x2c; x31; x5d].
Proof.
  assert (Hnew : newJsonChunker commaCursor emptyWorld =
                 Ret (emptyWorld,
                      Some (mkChunker (Some commaCursor)
                              (mkScanner (Some []) (mkLoc [Index 0] endOfValueState) 0)
                              emptyWorld), None)) by reflexivity.
  destruct (@splice_without_write_rebuilds_leaf refPlatform 100 100 commaCursor
              emptyWorld emptyWorld _ Hnew)
    as (b0 & j1 & jsonBytes & Hnth & HD & _ & Hleaf).
  - apply Nat.ltb_lt. vm_compute. reflexivity.
  - eexists _, j1, jsonBytes. split; [exact Hnew|]. split; [exact HD|].
    apply Hleaf. injection Hnth as <-. reflexivity.
Defined.

(** X8 on [keyChunker]: the key [a] is injected after the brace and is not
    scanned. *)
Lemma writeKey_not_rescanned_witness :
  let j := writeKey (mkLoc [Key [x61]] startOfValue) keyChunker in
  slice_bytes (jsonBuffer (jScanner j)) = [x7b; x22; x61; x22; x3a] /\
  exists j',
    processBuffer 5 j = Ret (j', None, []) /\
    jsonBuffer (jScanner j') = jsonBuffer (jScanner j).
Proof.
  intros j. split; [reflexivity|].
  destruct (@writeKey_not_rescanned refPlatform ReferenceFacts.refScanStep_progress 4
              (mkLoc [Key [x61]] startOfValue) keyChunker eq_refl)
    as (_ & j' & Hpb & Hbuf & _).
  exists j'. split; assumption.
Defined.

(** X9 on [hugeCandidate]: 2^32 bytes are tested as no byte at all. *)
Lemma crossesBoundary_truncation_witness :
  crossesBoundary (P := refPlatform) [xff] (Some []) =
  crossesBoundary (P := refPlatform) [xff] hugeCandidate.
Proof.
  apply (proj2 (@crossesBoundary_truncation refPlatform [xff] hugeCandidate)).
  rewrite hugeCandidate_len. reflexivity.
Defined.

(** X10 on [longDoc]: its root came with the final leaf. *)
Lemma serialize_root_needs_final_leaf_witness :
  exists j2 cut,
    [([xff], longString); ([xff], [])] =
      cut ++ [([xff], slice_bytes (jsonBuffer (jScanner j2)))].
Proof.
  destruct (@serialize_root_needs_final_leaf refPlatform 100 longDoc emptyWorld _ _ _
              longDoc_run)
    as (b & w1 & j2 & err & cut & node & addr & wa & wb & _ & _ & _ & _ & _ & _ & _ & Hls).
  exists j2, cut. exact Hls.
Defined.

(** X11 on [spliceChunker] and on a full write of [longDoc]. *)
Lemma chunker_panics_only_at_first_byte_witness :
  SerializeJsonToAddr 100 (OtherJson longDoc) emptyWorld <> Panic /\
  Done 100 100 spliceChunker <> Panic.
Proof.
  destruct (@chunker_panics_only_at_first_byte refPlatform
              ReferenceFacts.refScanStep_progress) as [Hser HDone].
  split; [apply Hser|].
  apply HDone. intros jc [= <-].
  apply Nat.ltb_lt. vm_compute. reflexivity.
Defined.

(** X12 on [emptyObject]: one leaf of two bytes. *)
Lemma serialize_small_document_one_leaf_witness :
  exists w' root ls,
    SerializeJsonToAddr 10 (OtherJson emptyObject) emptyWorld = Ret (w', inl root, ls) /\
    ls = [([xff], [x7b; x7d])].
Proof.
  eexists _, _, _. split; [vm_compute; reflexivity|].
  refine (@serialize_small_document_one_leaf refPlatform 10 emptyObject
            (Some [x7b; x7d]) emptyWorld _ _ _ eq_refl _ _).
  - vm_compute. reflexivity.
  - vm_compute. reflexivity.
Defined.
